(** * Stock analysis dashboard ([app.py]): indicator engine and feature pipeline

    The program is a pandas/numpy script.  Its numbers are float64 values.
    They are modelled here as exact rationals extended with the IEEE special
    values the script relies on (NaN as the "undefined" marker of pandas,
    the two infinities and the negative zero that [-mean] and [x / 0]
    produce).  Rounding, overflow and underflow are not modelled: every
    finite operation is exact. *)

From Stdlib Require Import String ZArith QArith List Bool Lia Lqa Sorted.
Import ListNotations.

(** ** float64 with exact finite arithmetic *)

Module IEEE.

(** [Fin q] with [q == 0] is the positive zero; [NZero] is [-0.0]. *)
Inductive float : Type :=
| NaN
| PInf
| NInf
| NZero
| Fin (q : Q).

Definition Qltb (a b : Q) : bool := negb (Qle_bool b a).
Definition Qzerob (a : Q) : bool := Qeq_bool a 0.

Definition of_Z (z : Z) : float := Fin (inject_Z z).
Definition of_nat (n : nat) : float := of_Z (Z.of_nat n).

Definition isnan (x : float) : bool :=
  match x with NaN => true | _ => false end.

(** pandas [notna]: infinities are values, only NaN is missing. *)
Definition notna (x : float) : bool := negb (isnan x).

Definition signbit (x : float) : bool :=
  match x with
  | NInf | NZero => true
  | Fin q => Qltb q 0
  | NaN | PInf => false
  end.

Inductive fclass : Type :=
| CNaN
| CInf
| CZero
| CFin (q : Q).

Definition classify (x : float) : fclass :=
  match x with
  | NaN => CNaN
  | PInf | NInf => CInf
  | NZero => CZero
  | Fin q => if Qzerob q then CZero else CFin q
  end.

Definition zero_of (neg : bool) : float := if neg then NZero else Fin 0.
Definition inf_of (neg : bool) : float := if neg then NInf else PInf.

Definition fneg (x : float) : float :=
  match x with
  | NaN => NaN
  | PInf => NInf
  | NInf => PInf
  | NZero => Fin 0
  | Fin q => if Qzerob q then NZero else Fin (- q)
  end.

Definition fadd (x y : float) : float :=
  match x, y with
  | NaN, _ | _, NaN => NaN
  | PInf, NInf | NInf, PInf => NaN
  | PInf, _ | _, PInf => PInf
  | NInf, _ | _, NInf => NInf
  | NZero, NZero => NZero
  | NZero, Fin q | Fin q, NZero => Fin q
  | Fin a, Fin b => Fin (a + b)
  end.

Definition fsub (x y : float) : float := fadd x (fneg y).

Definition fmul (x y : float) : float :=
  let s := xorb (signbit x) (signbit y) in
  match classify x, classify y with
  | CNaN, _ | _, CNaN => NaN
  | CInf, CZero | CZero, CInf => NaN
  | CInf, _ | _, CInf => inf_of s
  | CZero, _ | _, CZero => zero_of s
  | CFin a, CFin b => Fin (a * b)
  end.

(** Division never raises: [x / 0] is an infinity and [0 / 0] is NaN. *)
Definition fdiv (x y : float) : float :=
  let s := xorb (signbit x) (signbit y) in
  match classify x, classify y with
  | CNaN, _ | _, CNaN => NaN
  | CInf, CInf | CZero, CZero => NaN
  | CInf, _ => inf_of s
  | _, CInf => zero_of s
  | CZero, _ => zero_of s
  | _, CZero => inf_of s
  | CFin a, CFin b => Fin (a / b)
  end.

(** The value of a zero or of a finite number. *)
Definition fval (x : float) : option Q :=
  match x with
  | NZero => Some 0
  | Fin q => Some q
  | _ => None
  end.

Definition qv (x : float) : Q :=
  match fval x with Some q => q | None => 0 end.

(** Comparisons with NaN are false; the two zeros compare equal. *)
Definition flt (x y : float) : bool :=
  match x, y with
  | NaN, _ | _, NaN => false
  | _, NInf => false
  | NInf, _ => true
  | PInf, _ => false
  | _, PInf => true
  | _, _ => Qltb (qv x) (qv y)
  end.

Definition fle (x y : float) : bool :=
  match x, y with
  | NaN, _ | _, NaN => false
  | NInf, _ => true
  | _, NInf => false
  | _, PInf => true
  | PInf, _ => false
  | _, _ => Qle_bool (qv x) (qv y)
  end.

Definition fgt (x y : float) : bool := flt y x.
Definition fge (x y : float) : bool := fle y x.

(** [x =~ q]: [x] is finite and its value is the rational [q]. *)
Definition is_val (x : float) (q : Q) : Prop :=
  exists c, fval x = Some c /\ c == q.

Definition finite (x : float) : Prop := exists q, is_val x q.

End IEEE.

Export IEEE.

Notation "x =~ q" := (is_val x q) (at level 70, no associativity).

(** ** The pandas and numpy operations the script calls

    Each operation follows the documented behaviour of the library call
    named in its comment, for the arguments the script passes. *)

Module Pandas.

Definition Series : Type := list float.

Fixpoint zip_with {A B C : Type} (f : A -> B -> C) (xs : list A) (ys : list B)
  : list C :=
  match xs, ys with
  | x :: xs', y :: ys' => f x y :: zip_with f xs' ys'
  | _, _ => []
  end.

(** [s.diff(1)]: the first position has no predecessor and is NaN. *)
Definition diff (s : Series) : Series :=
  match s with
  | [] => []
  | _ :: tl => NaN :: zip_with fsub tl s
  end.

(** [s.diff()] on an int64 column: the result is a float64 column. *)
Definition diff_int (s : list Z) : Series := diff (map of_Z s).

(** [s.shift(-1)]: position [i] holds the value of position [i+1]; the
    last position is NaN. *)
Definition shift_m1 (s : Series) : Series :=
  match s with
  | [] => []
  | _ :: tl => tl ++ [NaN]
  end.

(** [s > k], [s < k] and [a > b], element by element. *)
Definition gt_scalar (s : Series) (k : float) : list bool :=
  map (fun x => fgt x k) s.
Definition lt_scalar (s : Series) (k : float) : list bool :=
  map (fun x => flt x k) s.
Definition gt_series (a b : Series) : list bool := zip_with fgt a b.

(** [s.where(cond, other)]: keep [s] where [cond] holds, else [other]. *)
Definition where_ (s : Series) (cond : list bool) (other : float) : Series :=
  zip_with (fun x (c : bool) => if c then x else other) s cond.

(** [np.where(cond, a, b)] with two int literals. *)
Definition np_where (cond : list bool) (a b : Z) : list Z :=
  map (fun c : bool => if c then a else b) cond.

(** The window of [s.rolling(window=w)] at position [i]: the positions
    [max(0, i-w+1) .. i]. *)
Definition window_at (w : nat) (s : Series) (i : nat) : list float :=
  let lo := (i + 1 - w)%nat in
  firstn (i + 1 - lo) (skipn lo s).

Definition fsum (xs : list float) : float := fold_left fadd xs (Fin 0).

(** [.mean()] of one window: NaN entries are not observations, and the
    result is NaN unless there are at least [minp] observations. *)
Definition mean_agg (minp : nat) (win : list float) : float :=
  let obs := filter notna win in
  let nobs := length obs in
  if ((minp <=? nobs) && (0 <? nobs))%nat
  then fdiv (fsum obs) (of_nat nobs)
  else NaN.

(** [.var(ddof)] of one window. *)
Definition var_agg (ddof minp : nat) (win : list float) : float :=
  let obs := filter notna win in
  let nobs := length obs in
  if ((minp <=? nobs) && (ddof <? nobs))%nat
  then
    let m := fdiv (fsum obs) (of_nat nobs) in
    fdiv (fsum (map (fun x => fmul (fsub x m) (fsub x m)) obs))
         (of_nat (nobs - ddof))
  else NaN.

(** [s.rolling(window=w).agg()]: [min_periods] defaults to the window. *)
Definition rolling (w : nat) (agg : nat -> list float -> float) (s : Series)
  : Series :=
  map (fun i => agg w (window_at w s i)) (seq 0 (length s)).

Definition rolling_mean (w : nat) (s : Series) : Series := rolling w mean_agg s.

Section Sqrt.

(** The square root is not rational: it is a parameter of the model. *)
Variable sqrtQ : Q -> Q.

(** pandas [zsqrt]: the square root, with 0 where the argument is negative. *)
Definition zsqrt (x : float) : float :=
  match x with
  | NaN => NaN
  | PInf => PInf
  | NInf => Fin 0
  | NZero => NZero
  | Fin q => if Qltb q 0 then Fin 0 else Fin (sqrtQ q)
  end.

(** [s.rolling(window=w).std()]: the sample deviation ([ddof = 1]). *)
Definition rolling_std (w : nat) (s : Series) : Series :=
  map zsqrt (rolling w (var_agg 1) s).

End Sqrt.

(** [s.ewm(span=span, adjust=False)]: the smoothing factor. *)
Definition alpha_of_span (span : Q) : Q :=
  let com := (span - 1) / 2 in
  1 / (1 + com).

(** One step of [.ewm(adjust=False).mean()] ([ignore_na=False]): the state
    is the running average and the weight the past has accumulated since the
    last observation. *)
Definition ewm_step (alpha : Q) (st : float * Q) (cur : float) : float * Q :=
  let '(weighted, old_wt) := st in
  if notna weighted then
    let old_wt := old_wt * (1 - alpha) in
    if notna cur
    then (fdiv (fadd (fmul (Fin old_wt) weighted) (fmul (Fin alpha) cur))
               (Fin (old_wt + alpha)), 1)
    else (weighted, old_wt)
  else if notna cur then (cur, old_wt) else (weighted, old_wt).

Fixpoint ewm_scan (alpha : Q) (st : float * Q) (s : Series) : Series :=
  match s with
  | [] => []
  | cur :: tl =>
      let st' := ewm_step alpha st cur in
      fst st' :: ewm_scan alpha st' tl
  end.

Definition ewm_mean (span : Q) (s : Series) : Series :=
  match s with
  | [] => []
  | x0 :: tl => x0 :: ewm_scan (alpha_of_span span) (x0, 1) tl
  end.

End Pandas.

Export Pandas.

(** ** The script *)

Module App.

(** The price history: the closing prices in date order.  The script reads
    no other column of the history. *)
Definition PriceSeries : Type := list Q.

Definition Close (data : PriceSeries) : Series := map Fin data.

(** [calculate_sma] *)
Definition calculate_sma (data : PriceSeries) (period : nat) : Series :=
  rolling_mean period (Close data).

(** The locals [delta], [gain], [loss] and [rs] of [calculate_rsi]. *)
Definition rsi_delta (data : PriceSeries) : Series := diff (Close data).

Definition rsi_gain (data : PriceSeries) (period : nat) : Series :=
  let delta := rsi_delta data in
  rolling_mean period (where_ delta (gt_scalar delta (of_Z 0)) (of_Z 0)).

Definition rsi_loss (data : PriceSeries) (period : nat) : Series :=
  let delta := rsi_delta data in
  map fneg (rolling_mean period (where_ delta (lt_scalar delta (of_Z 0)) (of_Z 0))).

Definition rsi_rs (data : PriceSeries) (period : nat) : Series :=
  zip_with fdiv (rsi_gain data period) (rsi_loss data period).

Definition rsi_of_rs (rs : float) : float :=
  fsub (of_Z 100) (fdiv (of_Z 100) (fadd (of_Z 1) rs)).

(** [calculate_rsi] *)
Definition calculate_rsi (data : PriceSeries) (period : nat) : Series :=
  map rsi_of_rs (rsi_rs data period).

(** [calculate_macd] *)
Definition calculate_macd (data : PriceSeries) : Series :=
  let ema_12 := ewm_mean 12 (Close data) in
  let ema_26 := ewm_mean 26 (Close data) in
  zip_with fsub ema_12 ema_26.

(** [calculate_bollinger_bands] *)
Definition calculate_bollinger_bands (sqrtQ : Q -> Q) (data : PriceSeries)
  (window : nat) (num_std_dev : float) : Series * Series :=
  let sma := rolling_mean window (Close data) in
  let rolling_std := rolling_std sqrtQ window (Close data) in
  let upper_band := zip_with fadd sma (map (fun s => fmul s num_std_dev) rolling_std) in
  let lower_band := zip_with fsub sma (map (fun s => fmul s num_std_dev) rolling_std) in
  (upper_band, lower_band).

(** [company_info['PE Ratio']]: the provider's number, or the string "N/A". *)
Inductive pe_ratio : Type :=
| PE_NA
| PE_num (x : float).

Definition pe_available (pe : pe_ratio) : bool :=
  match pe with PE_NA => false | PE_num _ => true end.
Definition pe_lt (pe : pe_ratio) (k : Z) : bool :=
  match pe with PE_NA => false | PE_num x => flt x (of_Z k) end.
Definition pe_gt (pe : pe_ratio) (k : Z) : bool :=
  match pe with PE_NA => false | PE_num x => fgt x (of_Z k) end.

(** The recommendation of [main] (lines 114-122). *)
Definition recommend (pe : pe_ratio) : string * string :=
  if pe_available pe && pe_lt pe 15 then ("Buy", "Undervalued")%string
  else if pe_available pe && pe_gt pe 25 then ("Sell", "Overvalued")%string
  else ("Hold", "Fairly Valued")%string.

(** A value of the provider's [info] dictionary: [None], a string or a
    number.  Other Python types are not modelled. *)
Inductive pyval : Type :=
| PyNone
| PyStr (s : string)
| PyNum (x : float).

(** A Python dict with string keys; the first binding of a key counts. *)
Definition dict : Type := list (string * pyval).

(** [d[key]]: [None] stands for [KeyError]. *)
Fixpoint dict_item (d : dict) (key : string) : option pyval :=
  match d with
  | [] => None
  | (k, v) :: tl => if String.eqb k key then Some v else dict_item tl key
  end.

(** [d.get(key, default)] *)
Definition dict_get (d : dict) (key : string) (default : pyval) : pyval :=
  match dict_item d key with
  | Some v => v
  | None => default
  end.

(** [get_company_info], applied to [stock.info]. *)
Definition get_company_info (info : dict) : dict :=
  [ ("Sector", dict_get info "sector" (PyStr "N/A"));
    ("Country", dict_get info "country" (PyStr "N/A"));
    ("PE Ratio", dict_get info "trailingPE" (PyStr "N/A"));
    ("PB Ratio", dict_get info "priceToBook" (PyStr "N/A"));
    ("EPS", dict_get info "trailingEps" (PyStr "N/A")) ]%string.

(** [v != s] for a string literal [s]: values of another type differ. *)
Definition py_ne_str (v : pyval) (s : string) : bool :=
  match v with
  | PyStr t => negb (String.eqb t s)
  | _ => true
  end.

(** [v < k] and [v > k] for an int literal [k]: [None] stands for the
    [TypeError] Python raises when [v] is [None] or a string. *)
Definition py_lt_int (v : pyval) (k : Z) : option bool :=
  match v with
  | PyNum x => Some (flt x (of_Z k))
  | _ => None
  end.

Definition py_gt_int (v : pyval) (k : Z) : option bool :=
  match v with
  | PyNum x => Some (fgt x (of_Z k))
  | _ => None
  end.

(** [a and b]: [b] is evaluated only when [a] is true. *)
Definition py_and (a : bool) (b : option bool) : option bool :=
  if a then b else Some false.

(** The recommendation of [main] (lines 114-122) on the dictionary that
    [get_company_info] returns; [None] stands for an exception. *)
Definition main_recommendation (company_info : dict) : option (string * string) :=
  match dict_item company_info "PE Ratio" with
  | None => None
  | Some pe =>
      match py_and (py_ne_str pe "N/A") (py_lt_int pe 15) with
      | None => None
      | Some true => Some ("Buy", "Undervalued")%string
      | Some false =>
          match py_and (py_ne_str pe "N/A") (py_gt_int pe 25) with
          | None => None
          | Some true => Some ("Sell", "Overvalued")%string
          | Some false => Some ("Hold", "Fairly Valued")%string
          end
      end
  end.

(** The [Crossover] and [Crossover_Signal] columns of [main].  The two
    averages are compared as exact means: where the exact means are equal
    or a rounding error apart the float64 comparison of line 138 can come
    out either way, so only what holds for both outcomes is proved about
    the flag. *)
Definition crossover (data : PriceSeries) (short_ma_days long_ma_days : nat)
  : list Z :=
  np_where (gt_series (calculate_sma data short_ma_days)
                      (calculate_sma data long_ma_days)) 1 0.

Definition crossover_signal (data : PriceSeries)
  (short_ma_days long_ma_days : nat) : Series :=
  diff_int (crossover data short_ma_days long_ma_days).

(** The [Target] column of [main]. *)
Definition target_col (data : PriceSeries) : list Z :=
  np_where (gt_series (shift_m1 (Close data)) (Close data)) 1 0.

(** One row of [stock_data] as the prediction step of [main] reads it.
    [Date] is the row's index label, here its position in the price history.
    The columns [Upper_Band], [Lower_Band], [Crossover] and
    [Crossover_Signal] are not read after the plots and are left out. *)
Record row : Type := {
  Date : nat;
  SMA_Short : float;
  SMA_Long : float;
  RSI : float;
  MACD : float;
  Target : Z
}.

(** [stock_data] after line 174: the columns are aligned by position. *)
Definition stock_data (data : PriceSeries) (short_ma_days long_ma_days : nat)
  : list row :=
  let sma_short := calculate_sma data short_ma_days in
  let sma_long := calculate_sma data long_ma_days in
  let rsi := calculate_rsi data 20 in
  let macd := calculate_macd data in
  let target := target_col data in
  map (fun i => {| Date := i;
                   SMA_Short := nth i sma_short NaN;
                   SMA_Long := nth i sma_long NaN;
                   RSI := nth i rsi NaN;
                   MACD := nth i macd NaN;
                   Target := nth i target 0%Z |})
      (seq 0 (length data)).

(** An int64 column holds no missing value. *)
Definition int_notna (z : Z) : bool := true.

(** [stock_data.dropna(subset=feature_columns + ['Target'])] *)
Definition dropna (rows : list row) : list row :=
  filter (fun r => notna (SMA_Short r) && notna (SMA_Long r) && notna (RSI r)
                   && notna (MACD r) && int_notna (Target r)) rows.

Definition FeatureRow : Type := (float * float * float * float)%type.

Definition features_of (rows : list row) : list (nat * FeatureRow) :=
  map (fun r => (Date r, (SMA_Short r, SMA_Long r, RSI r, MACD r))) rows.

Definition target_of (rows : list row) : list (nat * Z) :=
  map (fun r => (Date r, Target r)) rows.

(** What the prediction step does, as the calls it makes in order. *)
Inductive event : Type :=
| st_write (message : string)
| train_test_split (features : list (nat * FeatureRow)) (target : list (nat * Z))
                   (test_size : Q)
| train_model.

(** Modelled from the spec: the listing of [main] ends at the call of
    [train_test_split] (line 188); what follows the split is missing.  The
    spec (4.2, Model fit) has the classifier fitted on the training part,
    which is the call of [train_model] (defined at lines 77-81). *)
Definition after_split : list event := [train_model].

Definition not_enough_data : string :=
  "Not enough data available for prediction within the specified date range.".

(** The prediction step of [main] (lines 174-188). *)
Definition prediction_model (data : PriceSeries)
  (short_ma_days long_ma_days : nat) : list event :=
  let stock_data := dropna (stock_data data short_ma_days long_ma_days) in
  let features := features_of stock_data in
  let target := target_of stock_data in
  if (length features <? 5)%nat
  then [st_write not_enough_data]
  else train_test_split features target (2 # 10) :: after_split.

End App.

Export App.

(** ** Reference definitions the properties are stated with *)

Module Reference.

Definition Qsum (l : list Q) : Q := fold_right Qplus 0 l.

Definition arithmetic_mean (l : list Q) : Q :=
  Qsum l / inject_Z (Z.of_nat (length l)).

(** The [p] closing prices that end at position [i]. *)
Definition trailing (p : nat) (data : list Q) (i : nat) : list Q :=
  firstn p (skipn (i + 1 - p) data).

(** The textbook recursion of the exponential moving average, seeded by
    the first value. *)
Fixpoint ema (alpha : Q) (data : list Q) (i : nat) : Q :=
  match i with
  | O => nth 0 data 0
  | S j => alpha * nth (S j) data 0 + (1 - alpha) * ema alpha data j
  end.

(** Day-over-day change of the closing price at position [j] ([j >= 1]). *)
Definition change (data : list Q) (j : nat) : Q :=
  nth j data 0 - nth (j - 1) data 0.

(** Every day-over-day change inside the window of [period] rows that ends
    at position [i] is zero. *)
Definition flat_window (data : list Q) (period i : nat) : Prop :=
  forall j, (i + 1 - period <= j <= i)%nat -> (1 <= j)%nat -> change data j == 0.

(** The flag [np.where(cond, 1, 0)] writes for one comparison. *)
Definition flag_of (b : bool) : Z := if b then 1%Z else 0%Z.

Definition is_split (e : event) : bool :=
  match e with train_test_split _ _ _ => true | _ => false end.

Definition is_fit (e : event) : bool :=
  match e with train_model => true | _ => false end.

Definition is_message (e : event) : bool :=
  match e with st_write _ => true | _ => false end.

(** The four indicator columns of a row are all defined. *)
Definition indicators_defined (r : row) : bool :=
  notna (SMA_Short r) && notna (SMA_Long r) && notna (RSI r) && notna (MACD r).

(** The rise and the fall of the close at position [j]; the first row has
    no change and counts as zero. *)
Definition rise (data : list Q) (j : nat) : Q :=
  match j with
  | O => 0
  | S _ => if Qltb 0 (change data j) then change data j else 0
  end.

Definition fall (data : list Q) (j : nat) : Q :=
  match j with
  | O => 0
  | S _ => if Qltb (change data j) 0 then - change data j else 0
  end.

(** The sum of [f] over the [p] positions that end at [i]. *)
Definition window_sum (f : nat -> Q) (p i : nat) : Q :=
  Qsum (map f (seq (i + 1 - p) p)).

Definition close_at (data : list Q) (j : nat) : Q := nth j data 0.

(** The row has a next row, hence a close to take its label from. *)
Definition has_next_row (data : list Q) (r : row) : bool :=
  (S (Date r) <? length data)%nat.

(** The rows with complete indicator data and a label: the four indicators
    are defined and the label is defined. *)
Definition labelled_complete_rows (data : list Q) (s l : nat) : list row :=
  filter (fun r => indicators_defined r && has_next_row data r)
         (stock_data data s l).

Definition Buy : string * string := ("Buy", "Undervalued")%string.
Definition Sell : string * string := ("Sell", "Overvalued")%string.
Definition Hold : string * string := ("Hold", "Fairly Valued")%string.

End Reference.

Export Reference.

(** ** Sample inputs *)

Module Samples.

Definition prices (l : list Z) : PriceSeries := map inject_Z l.

(** Twelve closes with rises, falls and flat stretches. *)
Definition short_history : PriceSeries :=
  prices [10; 11; 12; 11; 11; 11; 13; 12; 15; 15; 15; 15]%Z.

(** Fifty-six closes: enough for the default windows 10 and 50. *)
Definition long_history : PriceSeries :=
  prices (map (fun i => 100 + Z.of_nat ((i * 7) mod 11))%Z (seq 0 56)).

(** The first fifty-four rows of [long_history]. *)
Definition long_history_54 : PriceSeries := firstn 54 long_history.

(** A rational lower approximation of the square root. *)
Definition sqrt_approx (q : Q) : Q :=
  inject_Z (Z.sqrt (Qnum q * 1000000 / QDen q)) / 1000.

End Samples.

Export Samples.

(** ** Rational comparisons *)

Lemma Qltb_true (a b : Q) : Qltb a b = true <-> a < b.
Proof.
  unfold Qltb. rewrite negb_true_iff. split; intro H.
  - apply Qnot_le_lt. intro Hle. apply Qle_bool_iff in Hle. congruence.
  - destruct (Qle_bool b a) eqn:E; [|reflexivity].
    apply Qle_bool_iff in E. exfalso. apply (Qlt_not_le _ _ H E).
Qed.

Lemma Qltb_false (a b : Q) : Qltb a b = false <-> b <= a.
Proof.
  unfold Qltb. rewrite negb_false_iff. apply Qle_bool_iff.
Qed.

Lemma Qle_bool_false (a b : Q) : Qle_bool a b = false <-> b < a.
Proof.
  rewrite <- Qltb_true. unfold Qltb. rewrite negb_true_iff. reflexivity.
Qed.

Lemma Qzerob_true (a : Q) : Qzerob a = true <-> a == 0.
Proof. apply Qeq_bool_iff. Qed.

Lemma Qzerob_false (a : Q) : Qzerob a = false <-> (a < 0 \/ 0 < a).
Proof.
  unfold Qzerob. split.
  - intro H. apply Qeq_bool_neq in H.
    destruct (Q_dec a 0) as [[Hlt|Hgt]|Heq]; auto. contradiction.
  - intro H. destruct (Qeq_bool a 0) eqn:E; [|reflexivity].
    apply Qeq_bool_iff in E. destruct H; lra.
Qed.

(** Turn every boolean test on rationals into a fact about the order. *)
Ltac qtests :=
  repeat match goal with
  | H : Qzerob _ = true |- _ => apply Qzerob_true in H
  | H : Qzerob _ = false |- _ => apply Qzerob_false in H; destruct H
  | H : Qltb _ _ = true |- _ => apply Qltb_true in H
  | H : Qltb _ _ = false |- _ => apply Qltb_false in H
  | H : Qle_bool _ _ = true |- _ => apply Qle_bool_iff in H
  | H : Qle_bool _ _ = false |- _ => apply Qle_bool_false in H
  end.

Ltac qsplit :=
  repeat match goal with
  | |- context [Qzerob ?a] => destruct (Qzerob a) eqn:?
  | |- context [Qltb ?a ?b] => destruct (Qltb a b) eqn:?
  | |- context [Qle_bool ?a ?b] => destruct (Qle_bool a b) eqn:?
  end.

(** ** Finite values of the float model *)

Lemma is_val_Fin (q : Q) : Fin q =~ q.
Proof. exists q. split; [reflexivity | reflexivity]. Qed.

Lemma is_val_NZero : NZero =~ 0.
Proof. exists 0. split; reflexivity. Qed.

Lemma is_val_eq (x : float) (a b : Q) : x =~ a -> a == b -> x =~ b.
Proof.
  intros [c [Hc He]] Hab. exists c. split; [exact Hc | now rewrite He].
Qed.

Lemma is_val_inv (x : float) (a : Q) :
  x =~ a -> (x = NZero /\ a == 0) \/ (exists q, x = Fin q /\ q == a).
Proof.
  intros [c [Hc He]]. destruct x; simpl in Hc; try discriminate.
  - left. injection Hc as <-. split; [reflexivity | now symmetry].
  - right. injection Hc as <-. exists q. split; [reflexivity | exact He].
Qed.

Lemma is_val_notna (x : float) (a : Q) : x =~ a -> notna x = true.
Proof.
  intro H. apply is_val_inv in H. destruct H as [[-> _]|[q [-> _]]]; reflexivity.
Qed.

Lemma is_val_not_nan (x : float) (a : Q) : x =~ a -> x <> NaN.
Proof.
  intros H E. subst. destruct H as [c [Hc _]]. discriminate.
Qed.

Ltac val_inv H :=
  let q := fresh "q" in let E := fresh "E" in
  apply is_val_inv in H; destruct H as [[-> E]|[q [-> E]]].

Ltac val_fin := eexists; split; [reflexivity | try lra].

Lemma fneg_val (x : float) (a : Q) : x =~ a -> fneg x =~ - a.
Proof.
  intro H. val_inv H; simpl.
  - val_fin.
  - qsplit; qtests; simpl; val_fin.
Qed.

Lemma fadd_val (x y : float) (a b : Q) : x =~ a -> y =~ b -> fadd x y =~ a + b.
Proof.
  intros Hx Hy. val_inv Hx; val_inv Hy; simpl; val_fin.
Qed.

Lemma fsub_val (x y : float) (a b : Q) : x =~ a -> y =~ b -> fsub x y =~ a - b.
Proof.
  intros Hx Hy. unfold fsub.
  eapply is_val_eq; [apply fadd_val; [exact Hx | apply fneg_val; exact Hy] | lra].
Qed.

Lemma zero_of_val (s : bool) : zero_of s =~ 0.
Proof. destruct s; [apply is_val_NZero | apply is_val_Fin]. Qed.

Lemma fmul_val (x y : float) (a b : Q) : x =~ a -> y =~ b -> fmul x y =~ a * b.
Proof.
  intros Hx Hy. unfold fmul.
  val_inv Hx; val_inv Hy; simpl classify; qsplit; qtests;
    try (eapply is_val_eq; [apply zero_of_val | nra]);
    try (eapply is_val_eq; [apply is_val_Fin | nra]).
Qed.

Lemma fdiv_val (x y : float) (a b : Q) :
  x =~ a -> y =~ b -> ~ b == 0 -> fdiv x y =~ a / b.
Proof.
  intros Hx Hy Hb. unfold fdiv.
  assert (Hz : forall c, c == 0 -> 0 == c / b).
  { intros c Hc. rewrite Hc. unfold Qdiv. ring. }
  val_inv Hx; val_inv Hy; simpl classify; qsplit; qtests;
    try (exfalso; apply Hb; lra);
    try (eapply is_val_eq; [apply zero_of_val | apply Hz; lra]).
  - eapply is_val_eq; [apply is_val_Fin | now rewrite E, E0].
  - eapply is_val_eq; [apply is_val_Fin | now rewrite E, E0].
  - eapply is_val_eq; [apply is_val_Fin | now rewrite E, E0].
  - eapply is_val_eq; [apply is_val_Fin | now rewrite E, E0].
Qed.

(** ** Positions of the list operations *)

Lemma zip_with_length {A B C : Type} (f : A -> B -> C) (xs : list A) (ys : list B) :
  length (zip_with f xs ys) = Nat.min (length xs) (length ys).
Proof.
  revert ys. induction xs as [|x xs IH]; intros [|y ys]; simpl; auto.
Qed.

Lemma zip_with_nth_error {A B C : Type} (f : A -> B -> C) (xs : list A)
  (ys : list B) (i : nat) :
  nth_error (zip_with f xs ys) i =
  match nth_error xs i, nth_error ys i with
  | Some x, Some y => Some (f x y)
  | _, _ => None
  end.
Proof.
  revert ys i. induction xs as [|x xs IH]; intros [|y ys] [|i]; simpl; auto.
  - destruct (nth_error xs i); reflexivity.
Qed.

Lemma nth_error_nth_default {A : Type} (l : list A) (i : nat) (d x : A) :
  nth_error l i = Some x -> nth i l d = x.
Proof. intro H. now apply nth_error_nth. Qed.

Lemma nth_error_in_range {A : Type} (l : list A) (i : nat) :
  (i < length l)%nat -> exists x, nth_error l i = Some x.
Proof.
  intro H. destruct (nth_error l i) eqn:E; [eauto|].
  apply nth_error_None in E. lia.
Qed.

Lemma map_seq_nth_error {A : Type} (f : nat -> A) (n i : nat) :
  nth_error (map f (seq 0 n)) i = if (i <? n)%nat then Some (f i) else None.
Proof.
  rewrite nth_error_map, nth_error_seq. destruct (i <? n)%nat; reflexivity.
Qed.

Lemma rolling_length (w : nat) (agg : nat -> list float -> float) (s : Series) :
  length (rolling w agg s) = length s.
Proof. unfold rolling. now rewrite length_map, length_seq. Qed.

Lemma rolling_nth_error (w : nat) (agg : nat -> list float -> float)
  (s : Series) (i : nat) :
  (i < length s)%nat ->
  nth_error (rolling w agg s) i = Some (agg w (window_at w s i)).
Proof.
  intro H. unfold rolling. rewrite map_seq_nth_error.
  apply Nat.ltb_lt in H. now rewrite H.
Qed.

Lemma diff_length (s : Series) : length (diff s) = length s.
Proof.
  destruct s as [|x tl]; simpl; [reflexivity|].
  rewrite zip_with_length. simpl. lia.
Qed.

Lemma diff_nth_error_0 (s : Series) :
  s <> [] -> nth_error (diff s) 0 = Some NaN.
Proof. destruct s; [congruence | reflexivity]. Qed.

Lemma diff_nth_error_S (s : Series) (i : nat) (x y : float) :
  nth_error s i = Some x -> nth_error s (S i) = Some y ->
  nth_error (diff s) (S i) = Some (fsub y x).
Proof.
  destruct s as [|z tl]; simpl; intros Hx Hy.
  - destruct i; discriminate.
  - rewrite zip_with_nth_error, Hy. simpl in Hx.
    change (nth_error (z :: tl) i = Some x) in Hx. now rewrite Hx.
Qed.

Lemma Close_length (data : PriceSeries) : length (Close data) = length data.
Proof. apply length_map. Qed.

Lemma Close_nth_error (data : PriceSeries) (i : nat) :
  nth_error (Close data) i = option_map Fin (nth_error data i).
Proof. apply nth_error_map. Qed.

(** ** Windows over a series of finite values *)

Lemma fsum_vals_from (xs : list float) (acc : float) (a : Q) :
  acc =~ a -> Forall finite xs ->
  fold_left fadd xs acc =~ a + Qsum (map qv xs).
Proof.
  revert acc a. induction xs as [|x xs IH]; intros acc a Ha Hf; simpl.
  - eapply is_val_eq; [exact Ha | lra].
  - inversion Hf as [|? ? [q Hq] Hf']; subst.
    eapply is_val_eq.
    + apply IH; [apply fadd_val; [exact Ha | exact Hq] | exact Hf'].
    + assert (qv x == q).
      { destruct Hq as [c [Hc He]]. unfold qv. now rewrite Hc. }
      lra.
Qed.

Lemma fsum_vals (xs : list float) :
  Forall finite xs -> fsum xs =~ Qsum (map qv xs).
Proof.
  intro H. unfold fsum. eapply is_val_eq.
  - apply fsum_vals_from; [apply is_val_Fin | exact H].
  - lra.
Qed.

Lemma filter_notna_finite (xs : list float) :
  Forall finite xs -> filter notna xs = xs.
Proof.
  induction 1 as [|x xs [q Hq] _ IH]; simpl; [reflexivity|].
  rewrite (is_val_notna _ _ Hq). now rewrite IH.
Qed.

Lemma of_nat_val (n : nat) : of_nat n =~ inject_Z (Z.of_nat n).
Proof. apply is_val_Fin. Qed.

Lemma inject_nat_pos (n : nat) : (0 < n)%nat -> 0 < inject_Z (Z.of_nat n).
Proof.
  intro H. change 0 with (inject_Z 0). rewrite <- Zlt_Qlt. lia.
Qed.

(** The mean of a window whose entries are all finite. *)
Lemma mean_agg_finite (minp : nat) (win : list float) :
  Forall finite win ->
  (minp <= length win)%nat -> (0 < length win)%nat ->
  mean_agg minp win =~ Qsum (map qv win) / inject_Z (Z.of_nat (length win)).
Proof.
  intros Hf Hm Hp. unfold mean_agg. rewrite (filter_notna_finite _ Hf).
  apply Nat.leb_le in Hm. apply Nat.ltb_lt in Hp as Hp'. rewrite Hm, Hp'. simpl.
  apply fdiv_val; [apply fsum_vals; exact Hf | apply of_nat_val |].
  pose proof (inject_nat_pos _ Hp). lra.
Qed.

Lemma mean_agg_short (minp : nat) (win : list float) :
  (length win < minp)%nat -> mean_agg minp win = NaN.
Proof.
  intro H. unfold mean_agg.
  assert (Hl : (length (filter notna win) <= length win)%nat) by apply filter_length_le.
  destruct (minp <=? length (filter notna win))%nat eqn:E; [|reflexivity].
  apply Nat.leb_le in E. lia.
Qed.

Lemma window_at_length (w : nat) (s : Series) (i : nat) :
  (i < length s)%nat ->
  length (window_at w s i) = Nat.min w (i + 1).
Proof.
  intro H. unfold window_at. rewrite length_firstn, length_skipn. lia.
Qed.

Lemma window_at_nth_error (w : nat) (s : Series) (i k : nat) :
  nth_error (window_at w s i) k =
  if (k <? Nat.min w (i + 1))%nat then nth_error s (i + 1 - w + k) else None.
Proof.
  unfold window_at. rewrite nth_error_firstn, nth_error_skipn.
  replace (i + 1 - (i + 1 - w))%nat with (Nat.min w (i + 1)) by lia.
  reflexivity.
Qed.

Lemma Forall_firstn {A : Type} (P : A -> Prop) (n : nat) (l : list A) :
  Forall P l -> Forall P (firstn n l).
Proof.
  intro H. revert n. induction H as [|x l Hx _ IH]; intros [|n]; simpl;
    constructor; auto.
Qed.

Lemma Forall_skipn {A : Type} (P : A -> Prop) (n : nat) (l : list A) :
  Forall P l -> Forall P (skipn n l).
Proof.
  intro H. revert n. induction H as [|x l Hx Hl IH]; intros [|n]; simpl;
    auto.
Qed.

Lemma window_at_finite (w : nat) (s : Series) (i : nat) :
  Forall finite s -> Forall finite (window_at w s i).
Proof.
  intro H. unfold window_at. apply Forall_firstn, Forall_skipn, H.
Qed.

(** [rolling_mean] over a series without NaN: undefined during the
    warm-up, then the mean of the [w] trailing values. *)
Lemma rolling_mean_finite (w : nat) (s : Series) (i : nat) :
  Forall finite s -> (0 < w)%nat -> (i < length s)%nat ->
  exists v, nth_error (rolling_mean w s) i = Some v /\
    ((i + 1 < w)%nat /\ v = NaN \/
     (w <= i + 1)%nat /\
       v =~ Qsum (map qv (window_at w s i)) / inject_Z (Z.of_nat w)).
Proof.
  intros Hf Hw Hi. unfold rolling_mean. rewrite (rolling_nth_error _ _ _ _ Hi).
  eexists. split; [reflexivity|].
  pose proof (window_at_length w s i Hi) as Hl.
  destruct (Nat.lt_ge_cases (i + 1) w) as [Hlt|Hge].
  - left. split; [exact Hlt|]. apply mean_agg_short. lia.
  - right. split; [exact Hge|].
    eapply is_val_eq.
    + apply mean_agg_finite; [apply window_at_finite, Hf | lia | lia].
    + rewrite Hl. replace (Nat.min w (i + 1)) with w by lia. reflexivity.
Qed.

(** ** Simple moving average *)

Lemma Close_finite (data : PriceSeries) : Forall finite (Close data).
Proof.
  unfold Close. apply Forall_forall. intros x Hx.
  apply in_map_iff in Hx. destruct Hx as [q [<- _]].
  exists q. apply is_val_Fin.
Qed.

Lemma qv_Close (data : PriceSeries) : map qv (Close data) = data.
Proof.
  unfold Close. rewrite map_map. simpl. apply map_id.
Qed.

Lemma window_at_Close (p : nat) (data : PriceSeries) (i : nat) :
  (p <= i + 1)%nat ->
  map qv (window_at p (Close data) i) = trailing p data i.
Proof.
  intro H. unfold window_at, trailing.
  rewrite <- firstn_map, <- skipn_map, qv_Close.
  replace (i + 1 - (i + 1 - p))%nat with p by lia. reflexivity.
Qed.

Lemma trailing_length (p : nat) (data : PriceSeries) (i : nat) :
  (p <= i + 1)%nat -> (i < length data)%nat -> length (trailing p data i) = p.
Proof.
  intros Hp Hi. unfold trailing. rewrite length_firstn, length_skipn. lia.
Qed.

Lemma calculate_sma_length (data : PriceSeries) (p : nat) :
  length (calculate_sma data p) = length data.
Proof.
  unfold calculate_sma, rolling_mean. now rewrite rolling_length, Close_length.
Qed.

Lemma calculate_sma_cases (data : PriceSeries) (p i : nat) :
  (0 < p)%nat -> (i < length data)%nat ->
  exists v, nth_error (calculate_sma data p) i = Some v /\
    ((i + 1 < p)%nat /\ v = NaN \/
     (p <= i + 1)%nat /\ v =~ arithmetic_mean (trailing p data i)).
Proof.
  intros Hp Hi. unfold calculate_sma.
  destruct (rolling_mean_finite p (Close data) i (Close_finite data) Hp)
    as [v [Hv Hc]]; [now rewrite Close_length|].
  exists v. split; [exact Hv|].
  destruct Hc as [[Hlt ->]|[Hge Hm]]; [left; auto | right].
  split; [exact Hge|]. eapply is_val_eq; [exact Hm|].
  unfold arithmetic_mean.
  rewrite (window_at_Close p data i Hge), (trailing_length p data i Hge Hi).
  reflexivity.
Qed.

(** C5. For a period [p >= 1], [calculate_sma] returns a series aligned
    with the prices that is NaN (the undefined marker, not a number) at
    every position before [p-1], and from position [p-1] on holds the
    arithmetic mean of the [p] closing prices that end at the position. *)
Theorem calculate_sma_warmup_then_mean (data : PriceSeries) (p i : nat) :
  (0 < p)%nat -> (i < length data)%nat ->
  length (calculate_sma data p) = length data /\
  ((i < p - 1)%nat -> nth_error (calculate_sma data p) i = Some NaN) /\
  ((p - 1 <= i)%nat ->
     exists v, nth_error (calculate_sma data p) i = Some v /\
       length (trailing p data i) = p /\
       v =~ arithmetic_mean (trailing p data i)).
Proof.
  intros Hp Hi. split; [apply calculate_sma_length|].
  destruct (calculate_sma_cases data p i Hp Hi) as [v [Hv Hc]].
  split; intro H.
  - destruct Hc as [[_ ->]|[Hge _]]; [exact Hv | lia].
  - destruct Hc as [[Hlt _]|[Hge Hm]]; [lia|].
    exists v. split; [exact Hv|]. split; [|exact Hm].
    apply trailing_length; [exact Hge | exact Hi].
Qed.

Lemma calculate_sma_warmup_then_mean_witness :
  nth_error (calculate_sma short_history 3) 1 = Some NaN /\
  exists v, nth_error (calculate_sma short_history 3) 4 = Some v /\
    v =~ arithmetic_mean [12; 11; 11].
Proof.
  split.
  - apply (calculate_sma_warmup_then_mean short_history 3 1);
      [lia | simpl; lia | simpl; lia].
  - destruct (calculate_sma_warmup_then_mean short_history 3 4) as [_ [_ H]];
      [lia | simpl; lia|].
    destruct H as [v [Hv [_ Hm]]]; [simpl; lia|].
    exists v. split; [exact Hv | exact Hm].
Defined.

(** A window of length zero has no observation: every position is NaN. *)
Lemma calculate_sma_period_zero (data : PriceSeries) (i : nat) :
  (i < length data)%nat -> nth_error (calculate_sma data 0) i = Some NaN.
Proof.
  intro Hi. unfold calculate_sma, rolling_mean.
  rewrite rolling_nth_error by now rewrite Close_length.
  unfold window_at. replace (i + 1 - (i + 1 - 0))%nat with 0%nat by lia.
  reflexivity.
Qed.

(** ** Exponential moving average and MACD *)

Lemma ewm_scan_length (alpha : Q) (st : float * Q) (s : Series) :
  length (ewm_scan alpha st s) = length s.
Proof.
  revert st. induction s as [|x s IH]; intro st; simpl; [reflexivity|].
  now rewrite IH.
Qed.

Lemma ewm_mean_length (span : Q) (s : Series) :
  length (ewm_mean span s) = length s.
Proof.
  destruct s as [|x s]; simpl; [reflexivity|]. now rewrite ewm_scan_length.
Qed.

(** On two finite values the step is the convex combination: the weights
    [1 - alpha] and [alpha] add up to one. *)
Lemma ewm_step_finite (alpha : Q) (w cur : float) (wq c : Q) :
  w =~ wq -> cur =~ c ->
  exists w', ewm_step alpha (w, 1) cur = (w', 1) /\
             w' =~ alpha * c + (1 - alpha) * wq.
Proof.
  intros Hw Hc. unfold ewm_step.
  rewrite (is_val_notna _ _ Hw), (is_val_notna _ _ Hc).
  eexists. split; [reflexivity|].
  eapply is_val_eq.
  - apply fdiv_val.
    + apply fadd_val; apply fmul_val;
        [apply is_val_Fin | exact Hw | apply is_val_Fin | exact Hc].
    + apply is_val_Fin.
    + lra.
  - field. lra.
Qed.

Lemma ema_shift (alpha x0 x1 : Q) (tl : list Q) (m : nat) :
  ema alpha (x0 :: x1 :: tl) (S m) ==
  ema alpha ((alpha * x1 + (1 - alpha) * x0) :: tl) m.
Proof.
  induction m as [|m IH].
  - simpl. reflexivity.
  - change (ema alpha (x0 :: x1 :: tl) (S (S m)))
      with (alpha * nth (S (S m)) (x0 :: x1 :: tl) 0
            + (1 - alpha) * ema alpha (x0 :: x1 :: tl) (S m)).
    rewrite IH. simpl. reflexivity.
Qed.

Lemma ewm_scan_finite (alpha : Q) (tl : list Q) :
  forall (w : float) (wq : Q) (k : nat),
  w =~ wq -> (k < length tl)%nat ->
  exists v, nth_error (ewm_scan alpha (w, 1) (map Fin tl)) k = Some v /\
            v =~ ema alpha (wq :: tl) (S k).
Proof.
  induction tl as [|t tl IH]; intros w wq k Hw Hk; simpl in Hk; [lia|].
  destruct (ewm_step_finite alpha w (Fin t) wq t Hw (is_val_Fin t))
    as [w' [Hstep Hw']].
  cbn [map ewm_scan]. rewrite Hstep. cbn [fst]. destruct k as [|k].
  - exists w'. split; [reflexivity|]. simpl. exact Hw'.
  - simpl nth_error.
    destruct (IH w' (alpha * t + (1 - alpha) * wq) k Hw') as [v [Hv Hm]];
      [lia|].
    exists v. split; [exact Hv|].
    eapply is_val_eq; [exact Hm|]. symmetry. apply ema_shift.
Qed.

(** [ewm(span, adjust=False).mean()] of the closing prices is the textbook
    recursion with the smoothing factor of the span. *)
Lemma ewm_mean_Close (span : Q) (data : PriceSeries) (i : nat) :
  (i < length data)%nat ->
  exists v, nth_error (ewm_mean span (Close data)) i = Some v /\
            v =~ ema (alpha_of_span span) data i.
Proof.
  destruct data as [|x0 tl]; simpl; intro Hi; [lia|].
  destruct i as [|k].
  - exists (Fin x0). split; [reflexivity | apply is_val_Fin].
  - simpl nth_error. apply ewm_scan_finite; [apply is_val_Fin | lia].
Qed.

Lemma alpha_of_span_12 : alpha_of_span 12 == 2 # 13.
Proof. reflexivity. Qed.

Lemma alpha_of_span_26 : alpha_of_span 26 == 2 # 27.
Proof. reflexivity. Qed.

Lemma alpha_of_span_formula (span : Q) :
  0 < span -> alpha_of_span span == 2 / (span + 1).
Proof. intro H. unfold alpha_of_span. field. repeat split; lra. Qed.

Lemma ema_alpha_eq (a b : Q) (data : list Q) (i : nat) :
  a == b -> ema a data i == ema b data i.
Proof.
  intro H. induction i as [|i IH]; simpl; [reflexivity|].
  rewrite IH, H. reflexivity.
Qed.

(** C3. At every position of the price series, [calculate_macd] is defined
    and equals the recursive EMA with smoothing factor 2/13 minus the
    recursive EMA with smoothing factor 2/27, both seeded by the first
    close; the result is aligned with the prices. *)
Theorem calculate_macd_is_ema_difference (data : PriceSeries) (i : nat) :
  (i < length data)%nat ->
  length (calculate_macd data) = length data /\
  alpha_of_span 12 == 2 / (12 + 1) /\ alpha_of_span 26 == 2 / (26 + 1) /\
  exists v, nth_error (calculate_macd data) i = Some v /\
            v =~ ema (2 # 13) data i - ema (2 # 27) data i.
Proof.
  intro Hi. split; [|split; [reflexivity | split; [reflexivity|]]].
  - unfold calculate_macd.
    rewrite zip_with_length, !ewm_mean_length, Close_length. lia.
  - destruct (ewm_mean_Close 12 data i Hi) as [a [Ha Hav]].
    destruct (ewm_mean_Close 26 data i Hi) as [b [Hb Hbv]].
    unfold calculate_macd. rewrite zip_with_nth_error, Ha, Hb.
    eexists. split; [reflexivity|].
    eapply is_val_eq; [apply fsub_val; [exact Hav | exact Hbv]|].
    rewrite (ema_alpha_eq _ _ data i alpha_of_span_12).
    rewrite (ema_alpha_eq _ _ data i alpha_of_span_26).
    reflexivity.
Qed.

Lemma calculate_macd_is_ema_difference_witness :
  exists v, nth_error (calculate_macd short_history) 4 = Some v /\
            v =~ ema (2 # 13) short_history 4 - ema (2 # 27) short_history 4.
Proof.
  destruct (calculate_macd_is_ema_difference short_history 4) as [_ [_ [_ H]]];
    [simpl; lia | exact H].
Defined.

(** ** Rolling means of one sign *)

Lemma Forall_nth_error_intro {A : Type} (P : A -> Prop) (l : list A) :
  (forall j x, nth_error l j = Some x -> P x) -> Forall P l.
Proof.
  intro H. apply Forall_forall. intros x Hx.
  apply In_nth_error in Hx. destruct Hx as [j Hj]. eapply H; eauto.
Qed.

Lemma Qsum_scaled_nonneg (c : Q) (l : list Q) :
  Forall (fun q => 0 <= c * q) l -> 0 <= c * Qsum l.
Proof.
  induction 1 as [|q l Hq _ IH]; simpl.
  - lra.
  - rewrite Qmult_plus_distr_r. lra.
Qed.

Lemma Qsum_zero (l : list Q) : Forall (fun q => q == 0) l -> Qsum l == 0.
Proof.
  induction 1 as [|q l Hq _ IH]; simpl; [reflexivity | rewrite Hq, IH; lra].
Qed.

Lemma qv_is_val (x : float) (q : Q) : x =~ q -> qv x == q.
Proof. intros [c [Hc He]]. unfold qv. now rewrite Hc. Qed.

Lemma rolling_mean_zero_window (s : Series) (i : nat) :
  (i < length s)%nat -> nth_error (rolling_mean 0 s) i = Some NaN.
Proof.
  intro Hi. unfold rolling_mean. rewrite rolling_nth_error by exact Hi.
  unfold window_at. replace (i + 1 - (i + 1 - 0))%nat with 0%nat by lia.
  reflexivity.
Qed.

(** A rolling mean of values of one sign ([c] is 1 or -1) is undefined or
    has that sign, and it is zero when the whole window is. *)
Lemma rolling_mean_sign (c : Q) (w : nat) (s : Series) (i : nat) :
  (forall j y, nth_error s j = Some y -> exists q, y =~ q /\ 0 <= c * q) ->
  (i < length s)%nat ->
  exists v, nth_error (rolling_mean w s) i = Some v /\
    (v = NaN \/
     exists m, v =~ m /\ 0 <= c * m /\
       ((forall j y, (i + 1 - w <= j <= i)%nat -> nth_error s j = Some y ->
                     y =~ 0) -> m == 0)).
Proof.
  intros Hs Hi. destruct w as [|w'].
  - exists NaN. split; [apply rolling_mean_zero_window, Hi | now left].
  - set (w := S w') in *.
    assert (Hfin : Forall finite s).
    { apply Forall_nth_error_intro. intros j x Hx.
      destruct (Hs j x Hx) as [q [Hq _]]. now exists q. }
    destruct (rolling_mean_finite w s i Hfin) as [v [Hv Hc]];
      [unfold w; lia | exact Hi |].
    exists v. split; [exact Hv|].
    destruct Hc as [[_ ->]|[Hge Hm]]; [now left | right].
    assert (Hwpos : 0 < inject_Z (Z.of_nat w)) by (apply inject_nat_pos; unfold w; lia).
    eexists. split; [exact Hm|]. split.
    + assert (Hsum : 0 <= c * Qsum (map qv (window_at w s i))).
      { apply Qsum_scaled_nonneg. apply Forall_map.
        apply Forall_nth_error_intro. intros k x Hx.
        rewrite window_at_nth_error in Hx.
        destruct (k <? Nat.min w (i + 1))%nat; [|discriminate].
        destruct (Hs _ _ Hx) as [q [Hq Hsign]].
        now rewrite (qv_is_val _ _ Hq). }
      unfold Qdiv. rewrite Qmult_assoc.
      apply Qmult_le_0_compat; [exact Hsum|].
      apply Qlt_le_weak, Qinv_lt_0_compat, Hwpos.
    + intro Hz.
      assert (Hsum : Qsum (map qv (window_at w s i)) == 0).
      { apply Qsum_zero. apply Forall_map.
        apply Forall_nth_error_intro. intros k x Hx.
        rewrite window_at_nth_error in Hx.
        destruct (k <? Nat.min w (i + 1))%nat eqn:Hk; [|discriminate].
        apply Nat.ltb_lt in Hk.
        apply qv_is_val. apply (Hz (i + 1 - w + k)%nat); [lia | exact Hx]. }
      rewrite Hsum. unfold Qdiv. ring.
Qed.

(** ** Relative strength index *)

Lemma where_map (f : float -> bool) (s : Series) (other : float) :
  where_ s (map f s) other = map (fun x => if f x then x else other) s.
Proof.
  unfold where_. induction s as [|x s IH]; simpl; [reflexivity | now rewrite IH].
Qed.

Lemma rsi_delta_length (data : PriceSeries) :
  length (rsi_delta data) = length data.
Proof. unfold rsi_delta. now rewrite diff_length, Close_length. Qed.

(** [delta]: NaN on the first row, the change of the close elsewhere. *)
Lemma rsi_delta_cases (data : PriceSeries) (j : nat) :
  (j < length data)%nat ->
  exists x, nth_error (rsi_delta data) j = Some x /\
    (j = 0%nat /\ x = NaN \/ (1 <= j)%nat /\ x =~ change data j).
Proof.
  intro Hj. unfold rsi_delta. destruct j as [|k].
  - exists NaN. split; [|now left].
    apply diff_nth_error_0. destruct data; [simpl in Hj; lia | discriminate].
  - destruct (nth_error_in_range data k) as [a Ha]; [lia|].
    destruct (nth_error_in_range data (S k) Hj) as [b Hb].
    exists (fsub (Fin b) (Fin a)). split.
    + apply diff_nth_error_S; rewrite Close_nth_error; [now rewrite Ha | now rewrite Hb].
    + right. split; [lia|].
      unfold change. replace (S k - 1)%nat with k by lia.
      rewrite (nth_error_nth_default data k 0 a Ha).
      rewrite (nth_error_nth_default data (S k) 0 b Hb).
      apply fsub_val; apply is_val_Fin.
Qed.

(** The series under the rolling mean of [gain]: the rises, 0 elsewhere. *)
Lemma gain_source_cases (data : PriceSeries) (j : nat) (y : float) :
  nth_error (where_ (rsi_delta data) (gt_scalar (rsi_delta data) (of_Z 0)) (of_Z 0)) j
    = Some y ->
  exists q, y =~ q /\ 0 <= 1 * q /\
    ((j = 0%nat \/ change data j == 0) -> q == 0).
Proof.
  unfold gt_scalar. rewrite where_map, nth_error_map. intro Hy.
  destruct (nth_error (rsi_delta data) j) as [x|] eqn:Hx; [|discriminate].
  simpl in Hy. injection Hy as <-.
  assert (Hj : (j < length data)%nat).
  { rewrite <- rsi_delta_length. apply nth_error_Some. congruence. }
  destruct (rsi_delta_cases data j Hj) as [x' [Hx' Hc]].
  rewrite Hx in Hx'. injection Hx' as <-.
  destruct Hc as [[_ ->]|[Hj1 Hv]].
  - exists 0. simpl. split; [apply is_val_Fin | split; [lra | reflexivity]].
  - val_inv Hv.
    + exists 0. simpl. split; [apply is_val_Fin | split; [lra | reflexivity]].
    + unfold fgt, flt, of_Z, qv. simpl. change (inject_Z 0) with 0.
      qsplit; qtests.
      * exists q. split; [apply is_val_Fin | split; [lra|]].
        intros [->|Hz]; [lia | lra].
      * exists 0. split; [apply is_val_Fin | split; [lra | reflexivity]].
Qed.

(** The series under the rolling mean of [loss]: the falls, 0 elsewhere. *)
Lemma loss_source_cases (data : PriceSeries) (j : nat) (y : float) :
  nth_error (where_ (rsi_delta data) (lt_scalar (rsi_delta data) (of_Z 0)) (of_Z 0)) j
    = Some y ->
  exists q, y =~ q /\ 0 <= (-1) * q /\
    ((j = 0%nat \/ change data j == 0) -> q == 0).
Proof.
  unfold lt_scalar. rewrite where_map, nth_error_map. intro Hy.
  destruct (nth_error (rsi_delta data) j) as [x|] eqn:Hx; [|discriminate].
  simpl in Hy. injection Hy as <-.
  assert (Hj : (j < length data)%nat).
  { rewrite <- rsi_delta_length. apply nth_error_Some. congruence. }
  destruct (rsi_delta_cases data j Hj) as [x' [Hx' Hc]].
  rewrite Hx in Hx'. injection Hx' as <-.
  destruct Hc as [[_ ->]|[Hj1 Hv]].
  - exists 0. simpl. split; [apply is_val_Fin | split; [lra | reflexivity]].
  - val_inv Hv.
    + exists 0. simpl. split; [apply is_val_Fin | split; [lra | reflexivity]].
    + unfold flt, of_Z, qv. simpl. change (inject_Z 0) with 0.
      qsplit; qtests.
      * exists q. split; [apply is_val_Fin | split; [lra|]].
        intros [->|Hz]; [lia | lra].
      * exists 0. split; [apply is_val_Fin | split; [lra | reflexivity]].
Qed.

Lemma gain_source_length (data : PriceSeries) :
  length (where_ (rsi_delta data) (gt_scalar (rsi_delta data) (of_Z 0)) (of_Z 0))
  = length data.
Proof.
  unfold gt_scalar. now rewrite where_map, length_map, rsi_delta_length.
Qed.

Lemma loss_source_length (data : PriceSeries) :
  length (where_ (rsi_delta data) (lt_scalar (rsi_delta data) (of_Z 0)) (of_Z 0))
  = length data.
Proof.
  unfold lt_scalar. now rewrite where_map, length_map, rsi_delta_length.
Qed.

(** [gain] is undefined or a mean that is not negative. *)
Lemma rsi_gain_cases (data : PriceSeries) (period i : nat) :
  (i < length data)%nat ->
  exists g, nth_error (rsi_gain data period) i = Some g /\
    (g = NaN \/
     exists m, g =~ m /\ 0 <= m /\ (flat_window data period i -> m == 0)).
Proof.
  intro Hi. unfold rsi_gain.
  destruct (rolling_mean_sign 1 period
              (where_ (rsi_delta data) (gt_scalar (rsi_delta data) (of_Z 0)) (of_Z 0)) i)
    as [v [Hv Hc]].
  - intros j y Hy. destruct (gain_source_cases data j y Hy) as [q [Hq [Hs _]]].
    exists q. split; assumption.
  - now rewrite gain_source_length.
  - exists v. split; [exact Hv|].
    destruct Hc as [->|[m [Hm [Hs Hz]]]]; [now left | right].
    exists m. split; [exact Hm|]. split; [lra|].
    intro Hflat. apply Hz. intros j y Hj Hy.
    destruct (gain_source_cases data j y Hy) as [q [Hq [_ Hq0]]].
    eapply is_val_eq; [exact Hq|]. apply Hq0.
    destruct j as [|k]; [now left | right]. apply Hflat; lia.
Qed.

(** [loss] is undefined or a mean that is not negative (the mean of the
    falls is negated). *)
Lemma rsi_loss_cases (data : PriceSeries) (period i : nat) :
  (i < length data)%nat ->
  exists l, nth_error (rsi_loss data period) i = Some l /\
    (l = NaN \/
     exists m, l =~ m /\ 0 <= m /\ (flat_window data period i -> m == 0)).
Proof.
  intro Hi. unfold rsi_loss.
  destruct (rolling_mean_sign (-1) period
              (where_ (rsi_delta data) (lt_scalar (rsi_delta data) (of_Z 0)) (of_Z 0)) i)
    as [v [Hv Hc]].
  - intros j y Hy. destruct (loss_source_cases data j y Hy) as [q [Hq [Hs _]]].
    exists q. split; assumption.
  - now rewrite loss_source_length.
  - exists (fneg v). split; [rewrite nth_error_map, Hv; reflexivity|].
    destruct Hc as [->|[m [Hm [Hs Hz]]]]; [now left | right].
    exists (- m). split; [apply fneg_val, Hm|]. split; [lra|].
    intro Hflat. rewrite Hz; [reflexivity|]. intros j y Hj Hy.
    destruct (loss_source_cases data j y Hy) as [q [Hq [_ Hq0]]].
    eapply is_val_eq; [exact Hq|]. apply Hq0.
    destruct j as [|k]; [now left | right]. apply Hflat; lia.
Qed.

Lemma rsi_length (data : PriceSeries) (period : nat) :
  length (calculate_rsi data period) = length data.
Proof.
  unfold calculate_rsi, rsi_rs, rsi_gain, rsi_loss, rolling_mean.
  rewrite length_map, zip_with_length, length_map, !rolling_length.
  rewrite gain_source_length, loss_source_length. lia.
Qed.

Lemma rsi_nth_error (data : PriceSeries) (period i : nat) (g l : float) :
  nth_error (rsi_gain data period) i = Some g ->
  nth_error (rsi_loss data period) i = Some l ->
  nth_error (calculate_rsi data period) i = Some (rsi_of_rs (fdiv g l)).
Proof.
  intros Hg Hl. unfold calculate_rsi, rsi_rs.
  now rewrite nth_error_map, zip_with_nth_error, Hg, Hl.
Qed.

Lemma rsi_of_rs_nan : rsi_of_rs NaN = NaN.
Proof. reflexivity. Qed.

Lemma fdiv_nan_l (y : float) : fdiv NaN y = NaN.
Proof. reflexivity. Qed.

Lemma fdiv_nan_r (x : float) : fdiv x NaN = NaN.
Proof. unfold fdiv. simpl. destruct (classify x); reflexivity. Qed.

(** An infinite ratio of either sign saturates the index at 100. *)
Lemma rsi_of_rs_inf (s : bool) : rsi_of_rs (inf_of s) =~ 100.
Proof. destruct s; vm_compute; eexists; split; reflexivity. Qed.

(** A finite ratio that is not negative gives an index in [0, 100). *)
Lemma rsi_of_rs_finite (rs : float) (r : Q) :
  rs =~ r -> 0 <= r ->
  exists q, rsi_of_rs rs =~ q /\ 0 <= q /\ q < 100.
Proof.
  intros Hrs Hr.
  assert (Hd : 0 < 1 + r) by lra.
  exists (100 - 100 / (1 + r)). split.
  - unfold rsi_of_rs. apply fsub_val; [apply is_val_Fin|].
    apply fdiv_val; [apply is_val_Fin | | lra].
    apply fadd_val; [apply is_val_Fin | exact Hrs].
  - assert (H1 : 100 / (1 + r) <= 100).
    { apply Qle_shift_div_r; [exact Hd | lra]. }
    assert (H2 : 0 < 100 / (1 + r)).
    { apply Qlt_shift_div_l; [exact Hd | lra]. }
    split; lra.
Qed.

(** The three cases of [rs = gain / loss] on two means that are not
    negative: 0/0 is undefined, x/0 saturates, the rest is in range. *)
Lemma rsi_of_means (g l : float) (gq lq : Q) :
  g =~ gq -> l =~ lq -> 0 <= gq -> 0 <= lq ->
  (gq == 0 /\ lq == 0 /\ rsi_of_rs (fdiv g l) = NaN) \/
  (exists q, rsi_of_rs (fdiv g l) =~ q /\ 0 <= q /\ q <= 100 /\
             (lq == 0 -> q == 100)).
Proof.
  intros Hg Hl Hgq Hlq.
  destruct (Qlt_le_dec 0 lq) as [Hpos|Hzero].
  - right.
    assert (Hr : 0 <= gq / lq) by (apply Qle_shift_div_l; [exact Hpos | lra]).
    destruct (rsi_of_rs_finite (fdiv g l) (gq / lq)) as [q [Hq [H0 H100]]];
      [apply fdiv_val; [exact Hg | exact Hl | lra] | exact Hr |].
    exists q. split; [exact Hq|]. split; [exact H0|]. split; [lra | intro; lra].
  - assert (Hl0 : lq == 0) by lra.
    assert (Hcl : classify l = CZero).
    { val_inv Hl; simpl; [reflexivity|].
      qsplit; qtests; [reflexivity | lra | lra]. }
    destruct (Qlt_le_dec 0 gq) as [Hgpos|Hgzero].
    + right. exists 100.
      assert (Hcg : exists q, classify g = CFin q).
      { val_inv Hg; [lra|]. simpl. qsplit; qtests; [lra | lra | eauto]. }
      destruct Hcg as [q Hcg].
      unfold fdiv. rewrite Hcg, Hcl.
      split; [apply rsi_of_rs_inf|]. split; [lra|]. split; [lra | reflexivity].
    + left. split; [lra|]. split; [exact Hl0|].
      assert (Hcg : classify g = CZero).
      { val_inv Hg; simpl; [reflexivity|].
        qsplit; qtests; [reflexivity | lra | lra]. }
      unfold fdiv. rewrite Hcg, Hcl. reflexivity.
Qed.

Lemma classify_zero (x : float) : x =~ 0 -> classify x = CZero.
Proof.
  intro H. val_inv H; simpl; [reflexivity|].
  qsplit; qtests; [reflexivity | lra | lra].
Qed.

Lemma fdiv_zero_zero (g l : float) : g =~ 0 -> l =~ 0 -> fdiv g l = NaN.
Proof.
  intros Hg Hl. unfold fdiv.
  now rewrite (classify_zero _ Hg), (classify_zero _ Hl).
Qed.

Lemma rsi_index_in_range (data : PriceSeries) (period i : nat) (v : float) :
  nth_error (calculate_rsi data period) i = Some v -> (i < length data)%nat.
Proof.
  intro H. rewrite <- (rsi_length data period). apply nth_error_Some. congruence.
Qed.

(** C2. Wherever [calculate_rsi] is defined (not NaN) its value lies in
    the closed interval [0, 100]; and where the rolling loss is zero while
    the rolling gain is positive, the division by zero does not fail: the
    index is defined and equals exactly 100. *)
Theorem calculate_rsi_range_and_saturation (data : PriceSeries) (period i : nat) :
  (forall v, nth_error (calculate_rsi data period) i = Some v -> v <> NaN ->
     exists q, v =~ q /\ 0 <= q /\ q <= 100) /\
  (forall g l gq,
     nth_error (rsi_gain data period) i = Some g ->
     nth_error (rsi_loss data period) i = Some l ->
     g =~ gq -> 0 < gq -> l =~ 0 ->
     exists v, nth_error (calculate_rsi data period) i = Some v /\ v =~ 100).
Proof.
  split.
  - intros v Hv Hnan.
    pose proof (rsi_index_in_range data period i v Hv) as Hi.
    destruct (rsi_gain_cases data period i Hi) as [g [Hg Hgc]].
    destruct (rsi_loss_cases data period i Hi) as [l [Hl Hlc]].
    rewrite (rsi_nth_error data period i g l Hg Hl) in Hv. injection Hv as <-.
    destruct Hgc as [->|[gq [Hgq [Hg0 _]]]]; [now elim Hnan|].
    destruct Hlc as [->|[lq [Hlq [Hl0 _]]]];
      [rewrite fdiv_nan_r in Hnan; now elim Hnan|].
    destruct (rsi_of_means g l gq lq Hgq Hlq Hg0 Hl0)
      as [[_ [_ E]]|[q [Hq [H0 [H100 _]]]]]; [contradiction|].
    exists q. split; [exact Hq | split; assumption].
  - intros g l gq Hg Hl Hgq Hpos Hl0.
    exists (rsi_of_rs (fdiv g l)). split; [apply rsi_nth_error; assumption|].
    destruct (rsi_of_means g l gq 0 Hgq Hl0)
      as [[E _]|[q [Hq [_ [_ Hsat]]]]]; [lra | lra | lra |].
    eapply is_val_eq; [exact Hq | apply Hsat; reflexivity].
Qed.

Lemma calculate_rsi_range_and_saturation_witness :
  (exists v q, nth_error (calculate_rsi short_history 3) 3 = Some v /\
               v =~ q /\ 0 <= q /\ q <= 100) /\
  (exists v, nth_error (calculate_rsi short_history 3) 2 = Some v /\ v =~ 100).
Proof.
  split.
  - pose proof (proj1 (calculate_rsi_range_and_saturation short_history 3 3)) as H.
    specialize (H (nth 3 (calculate_rsi short_history 3) NaN) eq_refl).
    destruct H as [q Hq]; [vm_compute; discriminate|].
    eexists. exists q. split; [reflexivity | exact Hq].
  - apply (proj2 (calculate_rsi_range_and_saturation short_history 3 2)
             (nth 2 (rsi_gain short_history 3) NaN)
             (nth 2 (rsi_loss short_history 3) NaN) (2 # 3)).
    + reflexivity.
    + reflexivity.
    + vm_compute. eexists. split; reflexivity.
    + reflexivity.
    + vm_compute. eexists. split; reflexivity.
Defined.

Lemma bounded_all_or_counterexample (P : nat -> Prop) :
  (forall j, P j \/ ~ P j) ->
  forall n lo : nat,
  (forall j, (lo <= j < lo + n)%nat -> P j) \/
  (exists j, (lo <= j < lo + n)%nat /\ ~ P j).
Proof.
  intros Hdec n. induction n as [|n IH]; intro lo.
  - left. intros j Hj. lia.
  - destruct (IH lo) as [Hall|[j [Hj Hn]]].
    + destruct (Hdec (lo + n)%nat) as [Hp|Hn].
      * left. intros j Hj.
        destruct (Nat.eq_dec j (lo + n)) as [->|Hne]; [exact Hp | apply Hall; lia].
      * right. exists (lo + n)%nat. split; [lia | exact Hn].
    + right. exists j. split; [lia | exact Hn].
Qed.

Lemma flat_window_or_change (data : PriceSeries) (period i : nat) :
  flat_window data period i \/
  exists j, (i + 1 - period <= j <= i)%nat /\ (1 <= j)%nat /\
            ~ change data j == 0.
Proof.
  assert (Hdec : forall j, ((1 <= j)%nat -> change data j == 0) \/
                           ~ ((1 <= j)%nat -> change data j == 0)).
  { intro j. destruct j as [|k]; [left; lia|].
    destruct (Qeq_dec (change data (S k)) 0) as [E|E]; [left; auto|].
    right. intro H. apply E, H. lia. }
  destruct (bounded_all_or_counterexample _ Hdec
              (i + 1 - (i + 1 - period))%nat (i + 1 - period)%nat)
    as [Hall|[j [Hj Hn]]].
  - left. intros j Hj Hj1. apply Hall; lia.
  - right. exists j. split; [lia|].
    destruct (le_lt_dec 1 j) as [H1|H1].
    + split; [exact H1|]. intro E. apply Hn. intros _. exact E.
    + exfalso. apply Hn. intro. lia.
Qed.

(** C10. Where the rolling means of gains and of losses are both zero the
    ratio is 0/0 and [calculate_rsi] is NaN, not 100 and not any other
    number; this is the case whenever every day-over-day change in the
    window is zero, so a defined value requires a nonzero change in the
    window. *)
Theorem calculate_rsi_undefined_on_flat_window (data : PriceSeries) (period i : nat) :
  (forall g l,
     nth_error (rsi_gain data period) i = Some g ->
     nth_error (rsi_loss data period) i = Some l ->
     g =~ 0 -> l =~ 0 ->
     nth_error (calculate_rsi data period) i = Some NaN) /\
  ((i < length data)%nat -> flat_window data period i ->
     nth_error (calculate_rsi data period) i = Some NaN) /\
  (forall v, nth_error (calculate_rsi data period) i = Some v -> v <> NaN ->
     exists j, (i + 1 - period <= j <= i)%nat /\ (1 <= j)%nat /\
               ~ change data j == 0).
Proof.
  assert (Hmeans : forall g l,
     nth_error (rsi_gain data period) i = Some g ->
     nth_error (rsi_loss data period) i = Some l ->
     g =~ 0 -> l =~ 0 ->
     nth_error (calculate_rsi data period) i = Some NaN).
  { intros g l Hg Hl Hg0 Hl0.
    rewrite (rsi_nth_error data period i g l Hg Hl).
    now rewrite (fdiv_zero_zero g l Hg0 Hl0). }
  assert (Hflat : (i < length data)%nat -> flat_window data period i ->
     nth_error (calculate_rsi data period) i = Some NaN).
  { intros Hi Hf.
    destruct (rsi_gain_cases data period i Hi) as [g [Hg Hgc]].
    destruct (rsi_loss_cases data period i Hi) as [l [Hl Hlc]].
    destruct Hgc as [->|[gq [Hgq [_ Hgz]]]];
      [now rewrite (rsi_nth_error data period i _ _ Hg Hl)|].
    destruct Hlc as [->|[lq [Hlq [_ Hlz]]]];
      [now rewrite (rsi_nth_error data period i _ _ Hg Hl), fdiv_nan_r|].
    apply (Hmeans g l Hg Hl).
    - eapply is_val_eq; [exact Hgq | apply Hgz, Hf].
    - eapply is_val_eq; [exact Hlq | apply Hlz, Hf]. }
  split; [exact Hmeans|]. split; [exact Hflat|].
  intros v Hv Hnan.
  destruct (flat_window_or_change data period i) as [Hf|Hex]; [|exact Hex].
  exfalso. apply Hnan.
  pose proof (rsi_index_in_range data period i v Hv) as Hi.
  rewrite (Hflat Hi Hf) in Hv. congruence.
Qed.

Lemma calculate_rsi_undefined_on_flat_window_witness :
  nth_error (calculate_rsi short_history 3) 11 = Some NaN /\
  exists j, (6 + 1 - 3 <= j <= 6)%nat /\ (1 <= j)%nat /\
            ~ change short_history j == 0.
Proof.
  split.
  - apply (proj1 (proj2 (calculate_rsi_undefined_on_flat_window short_history 3 11))).
    + simpl. lia.
    + intros j Hj _.
      assert (Hc : j = 9%nat \/ j = 10%nat \/ j = 11%nat) by lia.
      destruct Hc as [-> | [-> | ->]]; reflexivity.
  - apply (proj2 (proj2 (calculate_rsi_undefined_on_flat_window short_history 3 6))
             (nth 6 (calculate_rsi short_history 3) NaN)).
    + reflexivity.
    + vm_compute. discriminate.
Defined.

(** ** Crossover flag and crossover signal *)

Lemma crossover_length (data : PriceSeries) (s l : nat) :
  length (crossover data s l) = length data.
Proof.
  unfold crossover, np_where, gt_series.
  rewrite length_map, zip_with_length, !calculate_sma_length. lia.
Qed.

Lemma crossover_nth_error (data : PriceSeries) (s l i : nat) :
  (i < length data)%nat ->
  exists a b,
    nth_error (calculate_sma data s) i = Some a /\
    nth_error (calculate_sma data l) i = Some b /\
    nth_error (crossover data s l) i = Some (flag_of (fgt a b)).
Proof.
  intro Hi.
  destruct (nth_error_in_range (calculate_sma data s) i) as [a Ha];
    [now rewrite calculate_sma_length|].
  destruct (nth_error_in_range (calculate_sma data l) i) as [b Hb];
    [now rewrite calculate_sma_length|].
  exists a, b. split; [exact Ha|]. split; [exact Hb|].
  unfold crossover, np_where, gt_series.
  now rewrite nth_error_map, zip_with_nth_error, Ha, Hb.
Qed.

Lemma crossover_signal_length (data : PriceSeries) (s l : nat) :
  length (crossover_signal data s l) = length data.
Proof.
  unfold crossover_signal, diff_int.
  now rewrite diff_length, length_map, crossover_length.
Qed.

Lemma crossover_signal_first (data : PriceSeries) (s l : nat) :
  data <> [] -> nth_error (crossover_signal data s l) 0 = Some NaN.
Proof.
  intro H. unfold crossover_signal, diff_int. apply diff_nth_error_0.
  intro E. apply (f_equal (@length float)) in E.
  rewrite length_map, crossover_length in E. destruct data; [congruence | discriminate].
Qed.

Lemma crossover_signal_next (data : PriceSeries) (s l i : nat) (prev cur : Z) :
  nth_error (crossover data s l) i = Some prev ->
  nth_error (crossover data s l) (S i) = Some cur ->
  nth_error (crossover_signal data s l) (S i) = Some (fsub (of_Z cur) (of_Z prev)).
Proof.
  intros Hp Hc. unfold crossover_signal, diff_int.
  apply diff_nth_error_S; rewrite nth_error_map; [now rewrite Hp | now rewrite Hc].
Qed.

Ltac val_no :=
  let c := fresh "c" in let Hc := fresh "Hc" in let He := fresh "He" in
  intros [c [Hc He]]; simpl in Hc; injection Hc as <-; exfalso; lra.

Ltac val_yes := eexists; split; [reflexivity | lra].

(** The first difference of two flags. *)
Lemma flag_difference (p c : bool) :
  let v := fsub (of_Z (flag_of c)) (of_Z (flag_of p)) in
  (v =~ 1 <-> flag_of p = 0%Z /\ flag_of c = 1%Z) /\
  (v =~ -1 <-> flag_of p = 1%Z /\ flag_of c = 0%Z) /\
  (v =~ 0 <-> flag_of p = flag_of c) /\
  (v =~ 1 \/ v =~ -1 \/ v =~ 0).
Proof.
  destruct p, c; vm_compute fsub; simpl flag_of;
    (split; [|split; [|split]]);
    try (split; [val_no | intros [? ?]; discriminate]);
    try (split; [val_no | intro; discriminate]);
    try (split; [intros _; auto | intros _; val_yes]).
  - right; right; val_yes.
  - right; left; val_yes.
  - left; val_yes.
  - right; right; val_yes.
Qed.

(** C6. The crossover signal is aligned with the prices, is NaN on the
    first row, and on every later row is +1 exactly where the flag goes
    from 0 to 1, -1 exactly where it goes from 1 to 0, and 0 exactly where
    the flag does not change. *)
Theorem crossover_signal_marks_transitions (data : PriceSeries) (s l : nat) :
  length (crossover_signal data s l) = length data /\
  (data <> [] -> nth_error (crossover_signal data s l) 0 = Some NaN) /\
  (forall i, (S i < length data)%nat ->
     exists prev cur v,
       nth_error (crossover data s l) i = Some prev /\
       nth_error (crossover data s l) (S i) = Some cur /\
       nth_error (crossover_signal data s l) (S i) = Some v /\
       (v =~ 1 <-> prev = 0%Z /\ cur = 1%Z) /\
       (v =~ -1 <-> prev = 1%Z /\ cur = 0%Z) /\
       (v =~ 0 <-> prev = cur) /\
       (v =~ 1 \/ v =~ -1 \/ v =~ 0)).
Proof.
  split; [apply crossover_signal_length|].
  split; [apply crossover_signal_first|].
  intros i Hi.
  destruct (crossover_nth_error data s l i) as [a [b [_ [_ Hp]]]]; [lia|].
  destruct (crossover_nth_error data s l (S i) Hi) as [a' [b' [_ [_ Hc]]]].
  exists (flag_of (fgt a b)), (flag_of (fgt a' b')).
  eexists. split; [exact Hp|]. split; [exact Hc|].
  split; [apply crossover_signal_next; [exact Hp | exact Hc]|].
  apply flag_difference.
Qed.

Lemma crossover_signal_marks_transitions_witness :
  nth_error (crossover_signal short_history 2 4) 0 = Some NaN /\
  exists prev cur v,
    nth_error (crossover short_history 2 4) 2 = Some prev /\
    nth_error (crossover short_history 2 4) 3 = Some cur /\
    nth_error (crossover_signal short_history 2 4) 3 = Some v /\
    (v =~ 1 <-> prev = 0%Z /\ cur = 1%Z).
Proof.
  destruct (crossover_signal_marks_transitions short_history 2 4) as [_ [H0 HS]].
  split; [apply H0; discriminate|].
  destruct (HS 2%nat) as [prev [cur [v [Hp [Hc [Hv [H1 _]]]]]]]; [simpl; lia|].
  exists prev, cur, v.
  split; [exact Hp|]. split; [exact Hc|]. split; [exact Hv | exact H1].
Defined.

Lemma fgt_nan_l (b : float) : fgt NaN b = false.
Proof. destruct b; reflexivity. Qed.

Lemma fgt_nan_r (a : float) : fgt a NaN = false.
Proof. reflexivity. Qed.

(** Against a previous flag of 0 the signal is the current flag. *)
Lemma crossover_signal_after_warmup (data : PriceSeries) (s l i : nat) :
  (S i < length data)%nat ->
  nth_error (calculate_sma data s) i = Some NaN \/
  nth_error (calculate_sma data l) i = Some NaN ->
  exists f v,
    nth_error (crossover data s l) i = Some 0%Z /\
    nth_error (crossover data s l) (S i) = Some f /\
    nth_error (crossover_signal data s l) (S i) = Some v /\
    v =~ inject_Z f.
Proof.
  intros Hi Hnan.
  destruct (crossover_nth_error data s l i) as [a [b [Ha [Hb Hp]]]]; [lia|].
  destruct (crossover_nth_error data s l (S i) Hi) as [a' [b' [_ [_ Hc]]]].
  assert (Hp0 : nth_error (crossover data s l) i = Some 0%Z).
  { rewrite Hp. destruct Hnan as [E|E].
    - rewrite Ha in E. injection E as ->. now rewrite fgt_nan_l.
    - rewrite Hb in E. injection E as ->. now rewrite fgt_nan_r. }
  exists (flag_of (fgt a' b')). eexists.
  split; [exact Hp0|]. split; [exact Hc|].
  split; [apply crossover_signal_next; [exact Hp0 | exact Hc]|].
  destruct (fgt a' b'); vm_compute; eexists; split; reflexivity.
Qed.

(** C9. The crossover flag is total: at every position it is 0 or 1, and
    it is 0 wherever the short or the long average is NaN, because a
    comparison with NaN is false.  Hence a signal that follows a warm-up
    row is computed against a flag of 0 and is defined; this is the case at
    the first position where both averages are defined, when that position
    has a predecessor. *)
Theorem crossover_flag_is_total (data : PriceSeries) (s l i : nat) :
  (i < length data)%nat ->
  (exists f, nth_error (crossover data s l) i = Some f /\
     (f = 0 \/ f = 1)%Z /\
     (nth_error (calculate_sma data s) i = Some NaN \/
      nth_error (calculate_sma data l) i = Some NaN -> f = 0%Z)) /\
  ((0 < i)%nat ->
   nth_error (calculate_sma data s) (i - 1) = Some NaN \/
   nth_error (calculate_sma data l) (i - 1) = Some NaN ->
   exists f v,
     nth_error (crossover data s l) (i - 1) = Some 0%Z /\
     nth_error (crossover data s l) i = Some f /\
     nth_error (crossover_signal data s l) i = Some v /\
     v =~ inject_Z f) /\
  ((0 < s)%nat -> (0 < l)%nat -> i = (Nat.max s l - 1)%nat ->
   (exists a b,
      nth_error (calculate_sma data s) i = Some a /\
      nth_error (calculate_sma data l) i = Some b /\
      a <> NaN /\ b <> NaN) /\
   (forall j, (j < i)%nat ->
      nth_error (calculate_sma data s) j = Some NaN \/
      nth_error (calculate_sma data l) j = Some NaN) /\
   ((0 < i)%nat ->
    exists f v,
      nth_error (crossover data s l) i = Some f /\
      nth_error (crossover_signal data s l) i = Some v /\
      v =~ inject_Z f)).
Proof.
  intro Hi.
  assert (Hwarm : (0 < i)%nat ->
    nth_error (calculate_sma data s) (i - 1) = Some NaN \/
    nth_error (calculate_sma data l) (i - 1) = Some NaN ->
    exists f v,
      nth_error (crossover data s l) (i - 1) = Some 0%Z /\
      nth_error (crossover data s l) i = Some f /\
      nth_error (crossover_signal data s l) i = Some v /\
      v =~ inject_Z f).
  { intros Hpos Hnan. destruct i as [|k]; [lia|].
    replace (S k - 1)%nat with k in * by lia.
    apply crossover_signal_after_warmup; assumption. }
  split; [|split; [exact Hwarm|]].
  - destruct (crossover_nth_error data s l i Hi) as [a [b [Ha [Hb Hf]]]].
    exists (flag_of (fgt a b)). split; [exact Hf|]. split.
    + destruct (fgt a b); [right | left]; reflexivity.
    + intros [E|E].
      * rewrite Ha in E. injection E as ->. now rewrite fgt_nan_l.
      * rewrite Hb in E. injection E as ->. now rewrite fgt_nan_r.
  - intros Hs Hl Hfirst.
    assert (Hbefore : forall j, (j < i)%nat ->
      nth_error (calculate_sma data s) j = Some NaN \/
      nth_error (calculate_sma data l) j = Some NaN).
    { intros j Hj.
      destruct (calculate_sma_cases data s j Hs) as [a [Ha Hac]]; [lia|].
      destruct (calculate_sma_cases data l j Hl) as [b [Hb Hbc]]; [lia|].
      destruct Hac as [[_ ->]|[Hge _]]; [now left|].
      destruct Hbc as [[_ ->]|[Hge' _]]; [now right | lia]. }
    split; [|split; [exact Hbefore|]].
    + destruct (calculate_sma_cases data s i Hs Hi) as [a [Ha Hac]].
      destruct (calculate_sma_cases data l i Hl Hi) as [b [Hb Hbc]].
      exists a, b. split; [exact Ha|]. split; [exact Hb|].
      destruct Hac as [[Hlt _]|[_ Hav]]; [lia|].
      destruct Hbc as [[Hlt _]|[_ Hbv]]; [lia|].
      split; eapply is_val_not_nan; eassumption.
    + intro Hpos.
      destruct (Hwarm Hpos) as [f [v [_ [Hf [Hv Hval]]]]];
        [apply Hbefore; lia|].
      exists f, v. split; [exact Hf|]. split; [exact Hv | exact Hval].
Qed.

Lemma crossover_flag_is_total_witness :
  nth_error (crossover short_history 2 4) 1 = Some 0%Z /\
  exists f v,
    nth_error (crossover short_history 2 4) 3 = Some f /\
    nth_error (crossover_signal short_history 2 4) 3 = Some v /\
    v =~ inject_Z f.
Proof.
  split.
  - destruct (crossover_flag_is_total short_history 2 4 1) as [[f [Hf [_ H0]]] _];
      [simpl; lia|].
    rewrite Hf. f_equal. apply H0. right. reflexivity.
  - destruct (crossover_flag_is_total short_history 2 4 3) as [_ [_ H]];
      [simpl; lia|].
    destruct H as [_ [_ H]]; [lia | lia | reflexivity|].
    apply H. lia.
Defined.

(** ** Bollinger bands *)

Lemma sqrt_approx_nonneg (q : Q) : 0 <= q -> 0 <= sqrt_approx q.
Proof.
  intros _. unfold sqrt_approx.
  apply Qle_shift_div_l; [reflexivity|].
  rewrite Qmult_0_l. change 0 with (inject_Z 0). rewrite <- Zle_Qle.
  apply Z.sqrt_nonneg.
Qed.

Section BandOrder.

Variable sqrtQ : Q -> Q.
Hypothesis sqrtQ_nonneg : forall q, 0 <= q -> 0 <= sqrtQ q.

(** The deviation pandas returns is NaN or not negative. *)
Lemma zsqrt_nonneg (x : float) :
  zsqrt sqrtQ x = NaN \/ fle (of_Z 0) (zsqrt sqrtQ x) = true.
Proof.
  destruct x; simpl; auto.
  destruct (Qltb q 0) eqn:E; [right; reflexivity|].
  right. unfold fle, of_Z, qv. simpl. apply Qle_bool_iff.
  apply sqrtQ_nonneg. qtests. exact E.
Qed.

End BandOrder.

Lemma fle_zero_cases (x : float) :
  fle (of_Z 0) x = true ->
  x = PInf \/ x = NZero \/ exists q, x = Fin q /\ 0 <= q.
Proof.
  destruct x; simpl; try discriminate; auto.
  intro H. right; right. exists q. split; [reflexivity|].
  unfold of_Z, qv in H. simpl in H. change (inject_Z 0) with 0 in H.
  qtests. exact H.
Qed.

Lemma fle_Fin (a b : Q) : a <= b -> fle (Fin a) (Fin b) = true.
Proof. intro H. unfold fle, qv. simpl. now apply Qle_bool_iff. Qed.

Lemma fmul_nonneg (x k : float) :
  fle (of_Z 0) x = true -> fle (of_Z 0) k = true ->
  fmul x k = NaN \/ fle (of_Z 0) (fmul x k) = true.
Proof.
  intros Hx Hk.
  apply fle_zero_cases in Hx. apply fle_zero_cases in Hk.
  destruct Hx as [-> | [-> | [a [-> Ha]]]];
    destruct Hk as [-> | [-> | [b [-> Hb]]]];
    unfold fmul; cbn [classify signbit]; qsplit; qtests;
    try (exfalso; lra); cbn [xorb zero_of inf_of]; auto;
    right; apply fle_Fin; change (inject_Z 0) with 0; nra.
Qed.

Lemma fadd_nan_r (m : float) : fadd m NaN = NaN.
Proof. destruct m; reflexivity. Qed.

Lemma fmul_nan_l (k : float) : fmul NaN k = NaN.
Proof. reflexivity. Qed.

(** Adding a deviation that is not negative does not go below the mean,
    subtracting it does not go above. *)
Lemma band_order (m t : float) :
  fle (of_Z 0) t = true ->
  (fadd m t = NaN \/ fle m (fadd m t) = true) /\
  (fsub m t = NaN \/ fle (fsub m t) m = true).
Proof.
  intro Ht. apply fle_zero_cases in Ht.
  destruct Ht as [-> | [-> | [b [-> Hb]]]]; destruct m;
    unfold fsub; cbn [fneg]; qsplit; qtests; cbn [fadd];
    (split; [auto | auto]);
    try (right; reflexivity);
    try (right; apply fle_Fin; lra);
    try (right; unfold fle, qv; simpl; apply Qle_bool_iff; lra).
Qed.

(** C7. For a deviation multiplier that is not negative, the two bands
    returned by [calculate_bollinger_bands] are aligned with the prices,
    and wherever a band is defined the upper band is at least the rolling
    mean and the rolling mean is at least the lower band. *)
Theorem bollinger_bands_enclose_mean (sqrtQ : Q -> Q) (data : PriceSeries)
  (window : nat) (num_std_dev : float) :
  (forall q, 0 <= q -> 0 <= sqrtQ q) ->
  fge num_std_dev (of_Z 0) = true ->
  let bands := calculate_bollinger_bands sqrtQ data window num_std_dev in
  length (fst bands) = length data /\
  length (snd bands) = length data /\
  forall i u l,
    nth_error (fst bands) i = Some u -> nth_error (snd bands) i = Some l ->
    exists m, nth_error (calculate_sma data window) i = Some m /\
      (u <> NaN -> fge u m = true) /\
      (l <> NaN -> fge m l = true).
Proof.
  intros Hsqrt Hk. unfold calculate_bollinger_bands. cbn [fst snd].
  unfold rolling_std, rolling_mean, calculate_sma, rolling_mean.
  split; [|split].
  - rewrite zip_with_length, !length_map, !rolling_length, Close_length. lia.
  - rewrite zip_with_length, !length_map, !rolling_length, Close_length. lia.
  - intros i u l Hu Hl.
    rewrite zip_with_nth_error in Hu, Hl. rewrite !nth_error_map in Hu, Hl.
    destruct (nth_error (rolling window mean_agg (Close data)) i) as [m|];
      [|discriminate].
    destruct (nth_error (rolling window (var_agg 1) (Close data)) i) as [v|];
      [|discriminate].
    simpl in Hu, Hl. injection Hu as <-. injection Hl as <-.
    exists m. split; [reflexivity|].
    destruct (zsqrt_nonneg sqrtQ Hsqrt v) as [E|Hsd].
    + rewrite E, fmul_nan_l. unfold fsub. simpl fneg. rewrite fadd_nan_r.
      split; intro H; now elim H.
    + destruct (fmul_nonneg _ _ Hsd Hk) as [E|Ht].
      * rewrite E. unfold fsub. simpl fneg. rewrite fadd_nan_r.
        split; intro H; now elim H.
      * destruct (band_order m _ Ht) as [[E|Hup] [E'|Hlo]]; unfold fge;
          split; intro H; try (now elim H); assumption.
Qed.

Lemma bollinger_bands_enclose_mean_witness :
  exists u l m,
    nth_error (fst (calculate_bollinger_bands sqrt_approx short_history 3 (of_Z 2))) 3 = Some u /\
    nth_error (snd (calculate_bollinger_bands sqrt_approx short_history 3 (of_Z 2))) 3 = Some l /\
    nth_error (calculate_sma short_history 3) 3 = Some m /\
    fge u m = true /\ fge m l = true.
Proof.
  destruct (bollinger_bands_enclose_mean sqrt_approx short_history 3 (of_Z 2)
              sqrt_approx_nonneg eq_refl) as [_ [_ H]].
  destruct (H 3%nat _ _ eq_refl eq_refl) as [m [Hm [Hu Hl]]].
  eexists. eexists. exists m.
  split; [reflexivity|]. split; [reflexivity|]. split; [exact Hm|].
  split; [apply Hu | apply Hl]; vm_compute; discriminate.
Defined.

(** ** Fundamentals recommendation *)

Lemma recommend_total (pe : pe_ratio) :
  recommend pe = Buy \/ recommend pe = Sell \/ recommend pe = Hold.
Proof.
  unfold recommend.
  destruct (pe_available pe && pe_lt pe 15); [now left|].
  destruct (pe_available pe && pe_gt pe 25); [right; now left | right; now right].
Qed.

(** C8. The recommendation is a total function of the P/E value: every
    available value below 15 gives Buy/Undervalued, every available value
    above 25 gives Sell/Overvalued, every available value in [15, 25] and
    the unavailable value "N/A" give Hold/Fairly Valued; no input leads
    anywhere else. *)
Theorem recommend_by_pe_ratio :
  (forall q : Q, q < 15 -> recommend (PE_num (Fin q)) = Buy) /\
  (forall q : Q, 25 < q -> recommend (PE_num (Fin q)) = Sell) /\
  (forall q : Q, 15 <= q -> q <= 25 -> recommend (PE_num (Fin q)) = Hold) /\
  recommend PE_NA = Hold /\
  (forall pe, recommend pe = Buy \/ recommend pe = Sell \/ recommend pe = Hold).
Proof.
  split; [|split; [|split; [|split; [reflexivity | exact recommend_total]]]].
  - intros q H. unfold recommend, pe_available, pe_lt, flt, of_Z, qv. simpl.
    apply Qltb_true in H. change (inject_Z 15) with 15. now rewrite H.
  - intros q H. unfold recommend, pe_available, pe_lt, pe_gt, fgt, flt, of_Z, qv.
    simpl. change (inject_Z 15) with 15. change (inject_Z 25) with 25.
    assert (H15 : Qltb q 15 = false) by (apply Qltb_false; lra).
    apply Qltb_true in H. now rewrite H15, H.
  - intros q Hlo Hhi.
    unfold recommend, pe_available, pe_lt, pe_gt, fgt, flt, of_Z, qv.
    simpl. change (inject_Z 15) with 15. change (inject_Z 25) with 25.
    assert (H15 : Qltb q 15 = false) by (apply Qltb_false; lra).
    assert (H25 : Qltb 25 q = false) by (apply Qltb_false; lra).
    now rewrite H15, H25.
Qed.

Lemma recommend_by_pe_ratio_witness :
  recommend (PE_num (of_Z 10)) = Buy /\
  recommend (PE_num (of_Z 30)) = Sell /\
  recommend (PE_num (of_Z 20)) = Hold /\
  recommend PE_NA = Hold.
Proof.
  destruct recommend_by_pe_ratio as [Hbuy [Hsell [Hhold [Hna _]]]].
  split; [apply (Hbuy 10); reflexivity|].
  split; [apply (Hsell 30); reflexivity|].
  split; [apply (Hhold 20); discriminate | exact Hna].
Defined.

(** A value that compares with nothing (NaN) also falls through to Hold. *)
Lemma recommend_nan : recommend (PE_num NaN) = Hold.
Proof. reflexivity. Qed.

(** ** Target column and the prediction step *)

Lemma target_col_length (data : PriceSeries) :
  length (target_col data) = length data.
Proof.
  unfold target_col, np_where, gt_series, shift_m1.
  rewrite length_map, zip_with_length.
  destruct (Close data) eqn:E.
  - now rewrite <- Close_length, E.
  - rewrite length_app. simpl. rewrite <- Close_length, E. simpl. lia.
Qed.

Lemma shift_m1_nth_error (s : Series) (i : nat) :
  (i < length s)%nat ->
  nth_error (shift_m1 s) i =
  Some (match nth_error s (S i) with Some y => y | None => NaN end).
Proof.
  destruct s as [|x tl]; simpl; intro Hi; [lia|].
  destruct (Nat.lt_ge_cases i (length tl)) as [Hlt|Hge].
  - rewrite nth_error_app1 by exact Hlt.
    destruct (nth_error tl i) eqn:E; [reflexivity|].
    apply nth_error_None in E. lia.
  - rewrite nth_error_app2 by exact Hge.
    replace (i - length tl)%nat with 0%nat by lia.
    assert (E : nth_error tl i = None) by (apply nth_error_None; lia).
    now rewrite E.
Qed.

(** The label of a row: 1 if the next close is greater, 0 otherwise; on the
    last row the shifted close is NaN, the comparison is false, and the
    label is 0. *)
Lemma target_col_nth_error (data : PriceSeries) (i : nat) (c : Q) :
  nth_error data i = Some c ->
  nth_error (target_col data) i =
  Some (match nth_error data (S i) with
        | Some next => flag_of (Qltb c next)
        | None => 0%Z
        end).
Proof.
  intro Hc.
  assert (Hi : (i < length data)%nat) by (apply nth_error_Some; congruence).
  unfold target_col, np_where, gt_series.
  rewrite nth_error_map, zip_with_nth_error.
  rewrite shift_m1_nth_error by now rewrite Close_length.
  rewrite !Close_nth_error, Hc.
  destruct (nth_error data (S i)) as [next|]; reflexivity.
Qed.

Lemma target_col_last (data : PriceSeries) (i : nat) :
  S i = length data -> nth_error (target_col data) i = Some 0%Z.
Proof.
  intro Hlast.
  destruct (nth_error_in_range data i) as [c Hc]; [lia|].
  rewrite (target_col_nth_error data i c Hc).
  assert (E : nth_error data (S i) = None) by (apply nth_error_None; lia).
  now rewrite E.
Qed.

Lemma stock_data_length (data : PriceSeries) (s l : nat) :
  length (stock_data data s l) = length data.
Proof. unfold stock_data. now rewrite length_map, length_seq. Qed.

Lemma stock_data_nth_error (data : PriceSeries) (s l i : nat) :
  (i < length data)%nat ->
  exists r, nth_error (stock_data data s l) i = Some r /\
    Date r = i /\
    Target r = nth i (target_col data) 0%Z /\
    indicators_defined r =
      notna (nth i (calculate_sma data s) NaN)
      && notna (nth i (calculate_sma data l) NaN)
      && notna (nth i (calculate_rsi data 20) NaN)
      && notna (nth i (calculate_macd data) NaN).
Proof.
  intro Hi. unfold stock_data. rewrite map_seq_nth_error.
  apply Nat.ltb_lt in Hi. rewrite Hi.
  eexists. split; [reflexivity|]. repeat split.
Qed.

(** [dropna] keeps exactly the rows whose four indicators are defined: the
    [Target] column never removes a row. *)
Lemma dropna_keeps (rows : list row) (r : row) :
  In r (dropna rows) <-> In r rows /\ indicators_defined r = true.
Proof.
  unfold dropna, indicators_defined, int_notna. rewrite filter_In.
  rewrite andb_true_r. reflexivity.
Qed.

(** The last row of the history is labelled 0 and stays in the training
    rows whenever its indicators are defined. *)
Lemma last_row_kept (data : PriceSeries) (s l i : nat) :
  S i = length data ->
  exists r, nth_error (stock_data data s l) i = Some r /\
    Date r = i /\ Target r = 0%Z /\
    (indicators_defined r = true -> In r (dropna (stock_data data s l))).
Proof.
  intro Hlast.
  destruct (stock_data_nth_error data s l i) as [r [Hr [Hd [Ht _]]]]; [lia|].
  exists r. split; [exact Hr|]. split; [exact Hd|]. split.
  - rewrite Ht. apply nth_error_nth_default. now apply target_col_last.
  - intro Hdef. apply dropna_keeps. split; [|exact Hdef].
    eapply nth_error_In; eauto.
Qed.

(** C1 (evaluation of the script on [long_history], windows 10 and 50).
    The history has 56 rows; the last one, row 55, has no next row, yet it
    is labelled 0 and it is the seventh of the seven rows that reach the
    feature matrix and the label vector. *)
Theorem final_row_reaches_training_set :
  length long_history = 56%nat /\
  nth_error (target_col long_history) 55 = Some 0%Z /\
  map fst (features_of (dropna (stock_data long_history 10 50)))
    = [49; 50; 51; 52; 53; 54; 55]%nat /\
  nth_error (target_of (dropna (stock_data long_history 10 50))) 6
    = Some (55%nat, 0%Z).
Proof.
  split; [reflexivity|]. split; [reflexivity|].
  split; vm_compute; reflexivity.
Qed.

Lemma features_of_length (rows : list row) :
  length (features_of rows) = length rows.
Proof. apply length_map. Qed.

Lemma target_of_length (rows : list row) :
  length (target_of rows) = length rows.
Proof. apply length_map. Qed.

(** C4 (evaluation of the script on [long_history_54], windows 10 and 50).
    Four rows, 49 to 52, have the four indicators and a label.  The guard
    counts the rows [dropna] keeps, and these include row 53, the last one,
    whose label was never defined: it finds five, writes no message and
    calls the split. *)
Theorem prediction_splits_on_four_labelled_rows :
  length long_history_54 = 54%nat /\
  map Date (labelled_complete_rows long_history_54 10 50)
    = [49; 50; 51; 52]%nat /\
  map Date (dropna (stock_data long_history_54 10 50))
    = [49; 50; 51; 52; 53]%nat /\
  existsb is_split (prediction_model long_history_54 10 50) = true /\
  existsb is_message (prediction_model long_history_54 10 50) = false.
Proof.
  split; [reflexivity|].
  split; [vm_compute; reflexivity|].
  split; [vm_compute; reflexivity|].
  split; vm_compute; reflexivity.
Qed.

(** * Further properties of the script *)

(** ** Windows as sums over positions *)

Lemma Qsum_concat (l1 l2 : list Q) : Qsum (l1 ++ l2) == Qsum l1 + Qsum l2.
Proof.
  induction l1 as [|a l1 IH]; simpl; [lra | rewrite IH; lra].
Qed.

Lemma Qsum_map_ext (f g : nat -> Q) (l : list nat) :
  (forall j, In j l -> f j == g j) -> Qsum (map f l) == Qsum (map g l).
Proof.
  induction l as [|a l IH]; intro H; simpl; [reflexivity|].
  rewrite (H a) by now left. rewrite IH; [reflexivity|].
  intros j Hj. apply H. now right.
Qed.

Lemma Qsum_map_opp (f : nat -> Q) (l : list nat) :
  Qsum (map (fun j => - f j) l) == - Qsum (map f l).
Proof.
  induction l as [|a l IH]; simpl; [lra | rewrite IH; lra].
Qed.

Lemma Qsum_map_bounds (f : nat -> Q) (l : list nat) (lo hi : Q) :
  (forall j, In j l -> lo <= f j /\ f j <= hi) ->
  inject_Z (Z.of_nat (length l)) * lo <= Qsum (map f l) /\
  Qsum (map f l) <= inject_Z (Z.of_nat (length l)) * hi.
Proof.
  induction l as [|a l IH]; intro H.
  - cbn [length map]. change (inject_Z (Z.of_nat 0)) with 0.
    unfold Qsum. simpl. lra.
  - destruct (H a (or_introl eq_refl)) as [Hlo Hhi].
    destruct IH as [IHlo IHhi]; [intros j Hj; apply H; now right|].
    cbn [length map Qsum fold_right].
    rewrite Nat2Z.inj_succ. unfold Z.succ. rewrite inject_Z_plus.
    change (inject_Z 1) with 1. unfold Qsum in *. split; lra.
Qed.

(** The window of a rolling operation, read position by position. *)
Lemma window_at_positions (w : nat) (s : Series) (i : nat) :
  (w <= i + 1)%nat -> (i < length s)%nat ->
  window_at w s i = map (fun j => nth j s NaN) (seq (i + 1 - w) w).
Proof.
  intros Hw Hi. apply nth_error_ext. intro k.
  rewrite window_at_nth_error, nth_error_map, nth_error_seq.
  replace (Nat.min w (i + 1)) with w by lia.
  destruct (k <? w)%nat eqn:Hk; [|reflexivity].
  apply Nat.ltb_lt in Hk. simpl.
  destruct (nth_error_in_range s (i + 1 - w + k)) as [x Hx]; [lia|].
  rewrite Hx. f_equal. symmetry. now apply nth_error_nth_default.
Qed.

(** Past the warm-up, a rolling mean over finite values is the sum of the
    values at the window's positions divided by the window length. *)
Lemma rolling_mean_window_sum (w : nat) (s : Series) (f : nat -> Q) (i : nat) :
  (forall j y, nth_error s j = Some y -> y =~ f j) ->
  (0 < w)%nat -> (w <= i + 1)%nat -> (i < length s)%nat ->
  exists v, nth_error (rolling_mean w s) i = Some v /\
            v =~ window_sum f w i / inject_Z (Z.of_nat w).
Proof.
  intros Hs Hw Hge Hi.
  assert (Hfin : Forall finite s).
  { apply Forall_nth_error_intro. intros j x Hx. exists (f j). eauto. }
  destruct (rolling_mean_finite w s i Hfin Hw Hi) as [v [Hv Hc]].
  exists v. split; [exact Hv|].
  destruct Hc as [[Hlt _]|[_ Hm]]; [lia|].
  eapply is_val_eq; [exact Hm|].
  rewrite (window_at_positions w s i Hge Hi), map_map. unfold window_sum.
  rewrite (Qsum_map_ext (fun j => qv (nth j s NaN)) f); [reflexivity|].
  intros j Hj. apply in_seq in Hj.
  destruct (nth_error_in_range s j) as [x Hx]; [lia|].
  rewrite (nth_error_nth_default s j NaN x Hx).
  apply qv_is_val. eauto.
Qed.

Lemma window_sum_slide (f : nat -> Q) (p i : nat) :
  (0 < p)%nat -> (p <= i + 1)%nat ->
  window_sum f p (S i) == window_sum f p i + f (S i) - f (i + 1 - p)%nat.
Proof.
  intros Hp Hge. unfold window_sum.
  destruct p as [|p']; [lia|].
  replace (S i + 1 - S p')%nat with (S (i + 1 - S p')) by lia.
  rewrite (seq_S p' (S (i + 1 - S p'))).
  change (seq (i + 1 - S p') (S p'))
    with ((i + 1 - S p')%nat :: seq (S (i + 1 - S p')) p').
  rewrite map_app, Qsum_concat. simpl.
  replace (S (i + 1 - S p' + p')) with (S i) by lia. lra.
Qed.

Lemma window_sum_bounds (f : nat -> Q) (p i : nat) (lo hi : Q) :
  (forall j, (i + 1 - p <= j <= i)%nat -> lo <= f j /\ f j <= hi) ->
  (0 < p)%nat -> (p <= i + 1)%nat ->
  lo <= window_sum f p i / inject_Z (Z.of_nat p) /\
  window_sum f p i / inject_Z (Z.of_nat p) <= hi.
Proof.
  intros H Hp Hge. unfold window_sum.
  destruct (Qsum_map_bounds f (seq (i + 1 - p) p) lo hi) as [Hlo Hhi].
  { intros j Hj. apply in_seq in Hj. apply H. lia. }
  rewrite length_seq in Hlo, Hhi.
  pose proof (inject_nat_pos p Hp) as Hpos.
  split.
  - apply Qle_shift_div_l; [exact Hpos | lra].
  - apply Qle_shift_div_r; [exact Hpos | lra].
Qed.

(** ** More on the simple moving average *)

Lemma Close_value (data : PriceSeries) (j : nat) (y : float) :
  nth_error (Close data) j = Some y -> y =~ close_at data j.
Proof.
  rewrite Close_nth_error. intro H.
  destruct (nth_error data j) as [c|] eqn:E; [|discriminate].
  injection H as <-. unfold close_at.
  rewrite (nth_error_nth_default data j 0 c E). apply is_val_Fin.
Qed.

Lemma calculate_sma_window_sum (data : PriceSeries) (p i : nat) :
  (0 < p)%nat -> (p <= i + 1)%nat -> (i < length data)%nat ->
  exists v, nth_error (calculate_sma data p) i = Some v /\
            v =~ window_sum (close_at data) p i / inject_Z (Z.of_nat p).
Proof.
  intros Hp Hge Hi. unfold calculate_sma.
  apply rolling_mean_window_sum; [apply Close_value | exact Hp | exact Hge |].
  now rewrite Close_length.
Qed.

(** X1. A defined moving average lies between the smallest and the largest
    close of its window. *)
Theorem calculate_sma_within_window_range (data : PriceSeries) (p i : nat)
  (lo hi : Q) :
  (0 < p)%nat -> (p <= i + 1)%nat -> (i < length data)%nat ->
  (forall j, (i + 1 - p <= j <= i)%nat ->
             lo <= close_at data j /\ close_at data j <= hi) ->
  exists v q, nth_error (calculate_sma data p) i = Some v /\
              v =~ q /\ lo <= q /\ q <= hi.
Proof.
  intros Hp Hge Hi Hr.
  destruct (calculate_sma_window_sum data p i Hp Hge Hi) as [v [Hv Hm]].
  exists v. eexists. split; [exact Hv|]. split; [exact Hm|].
  apply window_sum_bounds; assumption.
Qed.

Lemma calculate_sma_within_window_range_witness :
  exists v q, nth_error (calculate_sma short_history 3) 4 = Some v /\
              v =~ q /\ 11 <= q /\ q <= 12.
Proof.
  apply (calculate_sma_within_window_range short_history 3 4 11 12);
    [lia | lia | simpl; lia |].
  intros j Hj.
  assert (Hc : j = 2%nat \/ j = 3%nat \/ j = 4%nat) by lia.
  destruct Hc as [-> | [-> | ->]]; split; discriminate.
Defined.

(** X2. Consecutive defined averages differ by the close that enters the
    window minus the close that leaves it, divided by the period. *)
Theorem calculate_sma_slides (data : PriceSeries) (p i : nat) :
  (0 < p)%nat -> (p <= i + 1)%nat -> (S i < length data)%nat ->
  exists v v' q q',
    nth_error (calculate_sma data p) i = Some v /\
    nth_error (calculate_sma data p) (S i) = Some v' /\
    v =~ q /\ v' =~ q' /\
    q' == q + (close_at data (S i) - close_at data (i + 1 - p))
              / inject_Z (Z.of_nat p).
Proof.
  intros Hp Hge Hi.
  destruct (calculate_sma_window_sum data p i Hp Hge) as [v [Hv Hm]]; [lia|].
  destruct (calculate_sma_window_sum data p (S i) Hp) as [v' [Hv' Hm']];
    [lia | exact Hi |].
  exists v, v'. eexists. eexists.
  split; [exact Hv|]. split; [exact Hv'|]. split; [exact Hm|].
  split; [exact Hm'|].
  rewrite (window_sum_slide (close_at data) p i Hp Hge).
  pose proof (inject_nat_pos p Hp) as Hpos.
  field. lra.
Qed.

Lemma calculate_sma_slides_witness :
  exists v v' q q',
    nth_error (calculate_sma short_history 3) 5 = Some v /\
    nth_error (calculate_sma short_history 3) 6 = Some v' /\
    v =~ q /\ v' =~ q' /\ q' == q + (13 - 11) / 3.
Proof.
  apply (calculate_sma_slides short_history 3 5); [lia | lia | simpl; lia].
Defined.

(** ** The relative strength index in closed form *)

(** The value of [delta.where(delta > 0, 0)] at each position. *)
Lemma gain_source_value (data : PriceSeries) (j : nat) (y : float) :
  nth_error (where_ (rsi_delta data) (gt_scalar (rsi_delta data) (of_Z 0)) (of_Z 0)) j
    = Some y ->
  y =~ rise data j.
Proof.
  unfold gt_scalar. rewrite where_map, nth_error_map. intro Hy.
  destruct (nth_error (rsi_delta data) j) as [x|] eqn:Hx; [|discriminate].
  simpl in Hy. injection Hy as <-.
  assert (Hj : (j < length data)%nat).
  { rewrite <- rsi_delta_length. apply nth_error_Some. congruence. }
  destruct (rsi_delta_cases data j Hj) as [x' [Hx' Hc]].
  rewrite Hx in Hx'. injection Hx' as <-.
  destruct Hc as [[-> ->]|[Hj1 Hv]]; [apply is_val_Fin|].
  destruct j as [|k]; [lia|]. unfold rise.
  val_inv Hv.
  - simpl. destruct (Qltb 0 (change data (S k))) eqn:Hc; qtests;
      [exfalso; lra | apply is_val_Fin].
  - unfold fgt, flt, of_Z, qv. simpl. change (inject_Z 0) with 0.
    destruct (Qltb 0 q) eqn:Hq; destruct (Qltb 0 (change data (S k))) eqn:Hc;
      qtests; try (exfalso; lra);
      [eapply is_val_eq; [apply is_val_Fin | exact E] | apply is_val_Fin].
Qed.

(** The value of [delta.where(delta < 0, 0)] at each position. *)
Lemma loss_source_value (data : PriceSeries) (j : nat) (y : float) :
  nth_error (where_ (rsi_delta data) (lt_scalar (rsi_delta data) (of_Z 0)) (of_Z 0)) j
    = Some y ->
  y =~ - fall data j.
Proof.
  unfold lt_scalar. rewrite where_map, nth_error_map. intro Hy.
  destruct (nth_error (rsi_delta data) j) as [x|] eqn:Hx; [|discriminate].
  simpl in Hy. injection Hy as <-.
  assert (Hj : (j < length data)%nat).
  { rewrite <- rsi_delta_length. apply nth_error_Some. congruence. }
  destruct (rsi_delta_cases data j Hj) as [x' [Hx' Hc]].
  rewrite Hx in Hx'. injection Hx' as <-.
  destruct Hc as [[-> ->]|[Hj1 Hv]]; [eapply is_val_eq; [apply is_val_Fin | reflexivity]|].
  destruct j as [|k]; [lia|]. unfold fall.
  val_inv Hv.
  - simpl. destruct (Qltb (change data (S k)) 0) eqn:Hc; qtests;
      [exfalso; lra | eapply is_val_eq; [apply is_val_Fin | reflexivity]].
  - unfold flt, of_Z, qv. simpl. change (inject_Z 0) with 0.
    destruct (Qltb q 0) eqn:Hq; destruct (Qltb (change data (S k)) 0) eqn:Hc;
      qtests; try (exfalso; lra);
      (eapply is_val_eq; [apply is_val_Fin | lra]).
Qed.

Lemma rise_nonneg (data : PriceSeries) (j : nat) : 0 <= rise data j.
Proof.
  unfold rise. destruct j; [lra|].
  destruct (Qltb 0 (change data (S j))) eqn:E; qtests; lra.
Qed.

Lemma fall_nonneg (data : PriceSeries) (j : nat) : 0 <= fall data j.
Proof.
  unfold fall. destruct j; [lra|].
  destruct (Qltb (change data (S j)) 0) eqn:E; qtests; lra.
Qed.

Lemma window_sum_nonneg (f : nat -> Q) (p i : nat) :
  (forall j, 0 <= f j) -> 0 <= window_sum f p i.
Proof.
  intro H. unfold window_sum.
  unfold Qsum.
  induction (seq (i + 1 - p) p) as [|a l IH]; simpl; [lra|].
  specialize (H a). lra.
Qed.

(** Past the warm-up, [gain] and [loss] are the window sums of the rises
    and of the falls divided by the period. *)
Lemma rsi_gain_window_sum (data : PriceSeries) (period i : nat) :
  (0 < period)%nat -> (period <= i + 1)%nat -> (i < length data)%nat ->
  exists g, nth_error (rsi_gain data period) i = Some g /\
            g =~ window_sum (rise data) period i / inject_Z (Z.of_nat period).
Proof.
  intros Hp Hge Hi. unfold rsi_gain.
  apply rolling_mean_window_sum;
    [apply gain_source_value | exact Hp | exact Hge |].
  now rewrite gain_source_length.
Qed.

Lemma rsi_loss_window_sum (data : PriceSeries) (period i : nat) :
  (0 < period)%nat -> (period <= i + 1)%nat -> (i < length data)%nat ->
  exists l, nth_error (rsi_loss data period) i = Some l /\
            l =~ window_sum (fall data) period i / inject_Z (Z.of_nat period).
Proof.
  intros Hp Hge Hi. unfold rsi_loss.
  destruct (rolling_mean_window_sum period
              (where_ (rsi_delta data) (lt_scalar (rsi_delta data) (of_Z 0)) (of_Z 0))
              (fun j => - fall data j) i) as [v [Hv Hm]];
    [apply loss_source_value | exact Hp | exact Hge
     | now rewrite loss_source_length |].
  exists (fneg v). split; [rewrite nth_error_map, Hv; reflexivity|].
  eapply is_val_eq; [apply fneg_val; exact Hm|].
  unfold window_sum. rewrite Qsum_map_opp.
  pose proof (inject_nat_pos period Hp). field. lra.
Qed.

(** The index of two means that are not both zero. *)
Lemma rsi_of_means_value (g l : float) (gq lq : Q) :
  g =~ gq -> l =~ lq -> 0 <= gq -> 0 <= lq -> 0 < gq + lq ->
  rsi_of_rs (fdiv g l) =~ 100 * gq / (gq + lq).
Proof.
  intros Hg Hl Hgq Hlq Hsum.
  destruct (Qlt_le_dec 0 lq) as [Hpos|Hzero].
  - assert (Hr : 0 <= gq / lq) by (apply Qle_shift_div_l; [exact Hpos | lra]).
    assert (H1 : fadd (of_Z 1) (fdiv g l) =~ 1 + gq / lq).
    { apply fadd_val; [apply is_val_Fin|].
      apply fdiv_val; [exact Hg | exact Hl | lra]. }
    assert (H2 : fdiv (of_Z 100) (fadd (of_Z 1) (fdiv g l))
                 =~ 100 / (1 + gq / lq)).
    { apply fdiv_val; [apply is_val_Fin | exact H1 | lra]. }
    eapply is_val_eq.
    + unfold rsi_of_rs. apply fsub_val; [apply is_val_Fin | exact H2].
    + change (inject_Z 100) with 100. field. split; lra.
  - destruct (rsi_of_means g l gq lq Hg Hl Hgq Hlq)
      as [[E _]|[q [Hq [_ [_ Hsat]]]]]; [exfalso; lra|].
    eapply is_val_eq; [exact Hq|].
    assert (Hl0 : lq == 0) by lra.
    rewrite (Hsat Hl0), Hl0. field. lra.
Qed.

(** The index past the warm-up, from the window sums. *)
Lemma calculate_rsi_cases (data : PriceSeries) (period i : nat) :
  (0 < period)%nat -> (period <= i + 1)%nat -> (i < length data)%nat ->
  let G := window_sum (rise data) period i in
  let L := window_sum (fall data) period i in
  0 <= G /\ 0 <= L /\
  exists v, nth_error (calculate_rsi data period) i = Some v /\
    (0 < G + L -> v =~ 100 * G / (G + L)) /\
    (G + L == 0 -> v = NaN).
Proof.
  intros Hp Hge Hi G L.
  assert (HG : 0 <= G) by (apply window_sum_nonneg, rise_nonneg).
  assert (HL : 0 <= L) by (apply window_sum_nonneg, fall_nonneg).
  split; [exact HG|]. split; [exact HL|].
  destruct (rsi_gain_window_sum data period i Hp Hge Hi) as [g [Hg Hgv]].
  destruct (rsi_loss_window_sum data period i Hp Hge Hi) as [l [Hl Hlv]].
  fold G in Hgv. fold L in Hlv.
  pose proof (inject_nat_pos period Hp) as Hpos.
  set (n := inject_Z (Z.of_nat period)) in *.
  exists (rsi_of_rs (fdiv g l)). split; [apply rsi_nth_error; assumption|].
  split.
  - intro Hsum.
    assert (Hgn : 0 <= G / n) by (apply Qle_shift_div_l; [exact Hpos | lra]).
    assert (Hln : 0 <= L / n) by (apply Qle_shift_div_l; [exact Hpos | lra]).
    assert (Hsn : 0 < G / n + L / n).
    { assert (E : G / n + L / n == (G + L) / n) by (field; lra).
      rewrite E. apply Qlt_shift_div_l; [exact Hpos | lra]. }
    eapply is_val_eq;
      [apply (rsi_of_means_value g l (G / n) (L / n) Hgv Hlv Hgn Hln Hsn)|].
    field. split; lra.
  - intro Hzero.
    assert (HG0 : G == 0) by lra. assert (HL0 : L == 0) by lra.
    rewrite (fdiv_zero_zero g l); [reflexivity | |].
    + eapply is_val_eq; [exact Hgv|]. rewrite HG0. field. lra.
    + eapply is_val_eq; [exact Hlv|]. rewrite HL0. field. lra.
Qed.

(** X3. Past the warm-up the index depends only on the total rise [G] and
    the total fall [L] of the closes inside the window: it is
    [100 * G / (G + L)] when the window has a nonzero change and NaN when
    it has none.  The first row counts as a change of zero, so the first
    defined value, at position [period - 1], rests on [period - 1] changes. *)
Theorem calculate_rsi_closed_form (data : PriceSeries) (period i : nat) :
  (0 < period)%nat -> (period <= i + 1)%nat -> (i < length data)%nat ->
  let G := window_sum (rise data) period i in
  let L := window_sum (fall data) period i in
  0 <= G /\ 0 <= L /\
  exists v, nth_error (calculate_rsi data period) i = Some v /\
    (0 < G + L -> v =~ 100 * G / (G + L)) /\
    (G + L == 0 -> v = NaN).
Proof. exact (calculate_rsi_cases data period i). Qed.

Lemma calculate_rsi_closed_form_witness :
  exists v, nth_error (calculate_rsi short_history 3) 3 = Some v /\
            v =~ 100 * 2 / (2 + 1).
Proof.
  destruct (calculate_rsi_closed_form short_history 3 3) as [_ [_ [v [Hv [H _]]]]];
    [lia | lia | simpl; lia |].
  exists v. split; [exact Hv|]. apply H. reflexivity.
Defined.

Lemma calculate_rsi_nan_before (data : PriceSeries) (period i : nat) :
  (i < length data)%nat -> (i + 1 < period \/ period = 0)%nat ->
  nth_error (calculate_rsi data period) i = Some NaN.
Proof.
  intros Hi Hw.
  destruct (nth_error_in_range (rsi_loss data period) i) as [l Hl].
  { unfold rsi_loss, rolling_mean.
    now rewrite length_map, rolling_length, loss_source_length. }
  assert (Hg : nth_error (rsi_gain data period) i = Some NaN).
  { unfold rsi_gain. destruct period as [|p'].
    - apply rolling_mean_zero_window. now rewrite gain_source_length.
    - unfold rolling_mean. rewrite rolling_nth_error
        by now rewrite gain_source_length.
      f_equal. apply mean_agg_short. rewrite window_at_length
        by now rewrite gain_source_length.
      lia. }
  now rewrite (rsi_nth_error data period i NaN l Hg Hl).
Qed.

(** X4. The index is aligned with the prices and is NaN during the warm-up,
    at every position before [period - 1]; with a period of zero it is NaN
    everywhere. *)
Theorem calculate_rsi_warmup (data : PriceSeries) (period i : nat) :
  (i < length data)%nat -> (i + 1 < period \/ period = 0)%nat ->
  length (calculate_rsi data period) = length data /\
  nth_error (calculate_rsi data period) i = Some NaN.
Proof.
  intros Hi Hw. split; [apply rsi_length|].
  now apply calculate_rsi_nan_before.
Qed.

Lemma calculate_rsi_warmup_witness :
  nth_error (calculate_rsi short_history 3) 1 = Some NaN.
Proof.
  apply (calculate_rsi_warmup short_history 3 1); [simpl; lia | left; lia].
Defined.

(** ** More on MACD *)

(** An exponential average is a convex mix of the closes seen so far. *)
Lemma ema_within_range (alpha : Q) (data : list Q) (lo hi : Q) (i : nat) :
  0 <= alpha -> alpha <= 1 ->
  (forall j, (j <= i)%nat -> lo <= close_at data j /\ close_at data j <= hi) ->
  lo <= ema alpha data i /\ ema alpha data i <= hi.
Proof.
  intros Ha0 Ha1. induction i as [|i IH]; intro H.
  - simpl. apply (H 0%nat). lia.
  - destruct IH as [IHlo IHhi]; [intros j Hj; apply H; lia|].
    destruct (H (S i)) as [Hlo Hhi]; [lia|]. unfold close_at in Hlo, Hhi.
    change (ema alpha data (S i))
      with (alpha * nth (S i) data 0 + (1 - alpha) * ema alpha data i).
    set (x := nth (S i) data 0) in *. set (e := ema alpha data i) in *.
    assert (H1 : 0 <= alpha * (x - lo)) by (apply Qmult_le_0_compat; lra).
    assert (H2 : 0 <= (1 - alpha) * (e - lo)) by (apply Qmult_le_0_compat; lra).
    assert (H3 : 0 <= alpha * (hi - x)) by (apply Qmult_le_0_compat; lra).
    assert (H4 : 0 <= (1 - alpha) * (hi - e)) by (apply Qmult_le_0_compat; lra).
    split; nra.
Qed.

(** X5. MACD never exceeds the spread of the closes seen so far: if they
    all lie in [lo, hi], MACD lies in [lo - hi, hi - lo].  In particular it
    is zero on the first row and for as long as the close has not moved. *)
Theorem calculate_macd_within_spread (data : PriceSeries) (i : nat) (lo hi : Q) :
  (i < length data)%nat ->
  (forall j, (j <= i)%nat -> lo <= close_at data j /\ close_at data j <= hi) ->
  exists v q, nth_error (calculate_macd data) i = Some v /\ v =~ q /\
    lo - hi <= q /\ q <= hi - lo /\ (lo == hi -> v =~ 0).
Proof.
  intros Hi Hr.
  destruct (ewm_mean_Close 12 data i Hi) as [a [Ha Hav]].
  destruct (ewm_mean_Close 26 data i Hi) as [b [Hb Hbv]].
  assert (Hra : lo <= ema (alpha_of_span 12) data i /\
                ema (alpha_of_span 12) data i <= hi).
  { apply ema_within_range; [discriminate | discriminate | exact Hr]. }
  assert (Hrb : lo <= ema (alpha_of_span 26) data i /\
                ema (alpha_of_span 26) data i <= hi).
  { apply ema_within_range; [discriminate | discriminate | exact Hr]. }
  exists (fsub a b). eexists.
  split; [unfold calculate_macd; now rewrite zip_with_nth_error, Ha, Hb|].
  split; [apply fsub_val; [exact Hav | exact Hbv]|].
  split; [lra|]. split; [lra|].
  intro E. eapply is_val_eq; [apply fsub_val; [exact Hav | exact Hbv]|]. lra.
Qed.

Lemma calculate_macd_within_spread_witness :
  exists v q, nth_error (calculate_macd short_history) 2 = Some v /\ v =~ q /\
    10 - 12 <= q /\ q <= 12 - 10.
Proof.
  destruct (calculate_macd_within_spread short_history 2 10 12)
    as [v [q [Hv [Hq [Hlo [Hhi _]]]]]].
  - simpl. lia.
  - intros j Hj.
    assert (Hc : j = 0%nat \/ j = 1%nat \/ j = 2%nat) by lia.
    destruct Hc as [-> | [-> | ->]]; split; discriminate.
  - exists v, q. split; [exact Hv|]. split; [exact Hq|]. split; assumption.
Defined.

(** ** More on the Bollinger bands *)

Lemma fadd_nan_l (y : float) : fadd NaN y = NaN.
Proof. reflexivity. Qed.

Lemma zsqrt_finite (sqrtQ : Q -> Q) (x : float) :
  finite x -> finite (zsqrt sqrtQ x).
Proof.
  intros [q Hq]. val_inv Hq; simpl.
  - exists 0. apply is_val_NZero.
  - destruct (Qltb q0 0); eexists; apply is_val_Fin.
Qed.

Lemma fsum_finite (xs : list float) : Forall finite xs -> finite (fsum xs).
Proof. intro H. eexists. apply fsum_vals. exact H. Qed.

(** The sample variance of at least two finite values is finite. *)
Lemma var_agg_finite (minp : nat) (win : list float) :
  Forall finite win -> (minp <= length win)%nat -> (1 < length win)%nat ->
  finite (var_agg 1 minp win).
Proof.
  intros Hf Hm Hn. unfold var_agg. rewrite (filter_notna_finite _ Hf).
  apply Nat.leb_le in Hm. apply Nat.ltb_lt in Hn as Hn'. rewrite Hm, Hn'.
  cbn [andb].
  assert (Hmean : finite (fdiv (fsum win) (of_nat (length win)))).
  { eexists. apply fdiv_val; [apply fsum_vals, Hf | apply of_nat_val |].
    pose proof (inject_nat_pos (length win) ltac:(lia)). lra. }
  destruct Hmean as [m Hmv].
  eexists. apply fdiv_val.
  - apply fsum_vals. apply Forall_map.
    apply Forall_forall. intros x Hx.
    destruct (proj1 (Forall_forall _ _) Hf x Hx) as [q Hq].
    eexists. apply fmul_val; apply fsub_val; eassumption.
  - apply of_nat_val.
  - pose proof (inject_nat_pos (length win - 1) ltac:(lia)). lra.
Qed.

Lemma var_agg_single (minp : nat) (win : list float) :
  (length win <= 1)%nat -> var_agg 1 minp win = NaN.
Proof.
  intro H. unfold var_agg.
  assert (Hl : (length (filter notna win) <= length win)%nat)
    by apply filter_length_le.
  destruct (1 <? length (filter notna win))%nat eqn:E.
  - apply Nat.ltb_lt in E. lia.
  - now rewrite andb_false_r.
Qed.

Lemma bands_nth_error (sqrtQ : Q -> Q) (data : PriceSeries) (window : nat)
  (k : float) (i : nat) :
  (i < length data)%nat ->
  let m := mean_agg window (window_at window (Close data) i) in
  let sd := zsqrt sqrtQ (var_agg 1 window (window_at window (Close data) i)) in
  nth_error (calculate_sma data window) i = Some m /\
  nth_error (fst (calculate_bollinger_bands sqrtQ data window k)) i
    = Some (fadd m (fmul sd k)) /\
  nth_error (snd (calculate_bollinger_bands sqrtQ data window k)) i
    = Some (fsub m (fmul sd k)).
Proof.
  intros Hi m sd.
  assert (Hi' : (i < length (Close data))%nat) by now rewrite Close_length.
  unfold calculate_bollinger_bands, calculate_sma, rolling_std, rolling_mean.
  cbn [fst snd].
  rewrite !zip_with_nth_error, !nth_error_map.
  rewrite !rolling_nth_error by exact Hi'.
  repeat split.
Qed.

(** X6. With a window of at least two rows and a finite multiplier, both
    bands are defined exactly from position [window - 1] on (NaN before),
    and there they are symmetric about the moving average: the upper and
    the lower band add up to twice the average. *)
Theorem bollinger_bands_symmetric (sqrtQ : Q -> Q) (data : PriceSeries)
  (window : nat) (k : float) (i : nat) :
  (2 <= window)%nat -> finite k -> (i < length data)%nat ->
  let bands := calculate_bollinger_bands sqrtQ data window k in
  ((i + 1 < window)%nat ->
     nth_error (fst bands) i = Some NaN /\ nth_error (snd bands) i = Some NaN) /\
  ((window <= i + 1)%nat ->
     exists u l m uq lq mq,
       nth_error (fst bands) i = Some u /\ nth_error (snd bands) i = Some l /\
       nth_error (calculate_sma data window) i = Some m /\
       u =~ uq /\ l =~ lq /\ m =~ mq /\ uq + lq == 2 * mq).
Proof.
  intros Hw [kq Hk] Hi bands. unfold bands.
  destruct (bands_nth_error sqrtQ data window k i Hi) as [Hm [Hu Hl]].
  assert (Hi' : (i < length (Close data))%nat) by now rewrite Close_length.
  pose proof (window_at_length window (Close data) i Hi') as Hlen.
  split; intro Hpos.
  - rewrite Hu, Hl. rewrite mean_agg_short by lia. now split.
  - assert (Hfw : Forall finite (window_at window (Close data) i))
      by apply window_at_finite, Close_finite.
    assert (Hmv : finite (mean_agg window (window_at window (Close data) i))).
    { eexists. apply mean_agg_finite; [exact Hfw | lia | lia]. }
    assert (Hsd : finite (zsqrt sqrtQ
                    (var_agg 1 window (window_at window (Close data) i)))).
    { apply zsqrt_finite, var_agg_finite; [exact Hfw | lia | lia]. }
    destruct Hmv as [mq Hmq]. destruct Hsd as [sq Hsq].
    do 3 eexists. exists (mq + sq * kq), (mq - sq * kq), mq.
    split; [exact Hu|]. split; [exact Hl|]. split; [exact Hm|].
    split; [apply fadd_val; [exact Hmq | apply fmul_val; assumption]|].
    split; [apply fsub_val; [exact Hmq | apply fmul_val; assumption]|].
    split; [exact Hmq | ring].
Qed.

Lemma bollinger_bands_symmetric_witness :
  exists u l m uq lq mq,
    nth_error (fst (calculate_bollinger_bands sqrt_approx short_history 3 (of_Z 2))) 3 = Some u /\
    nth_error (snd (calculate_bollinger_bands sqrt_approx short_history 3 (of_Z 2))) 3 = Some l /\
    nth_error (calculate_sma short_history 3) 3 = Some m /\
    u =~ uq /\ l =~ lq /\ m =~ mq /\ uq + lq == 2 * mq.
Proof.
  apply (proj2 (bollinger_bands_symmetric sqrt_approx short_history 3 (of_Z 2) 3
                  ltac:(lia) (ex_intro _ 2 (is_val_Fin 2)) ltac:(simpl; lia))).
  lia.
Defined.

(** X7. With a window of one row (or none) the sample deviation has no
    degree of freedom left: both bands are NaN at every position. *)
Theorem bollinger_bands_need_two_rows (sqrtQ : Q -> Q) (data : PriceSeries)
  (window : nat) (k : float) (i : nat) :
  (window <= 1)%nat -> (i < length data)%nat ->
  nth_error (fst (calculate_bollinger_bands sqrtQ data window k)) i = Some NaN /\
  nth_error (snd (calculate_bollinger_bands sqrtQ data window k)) i = Some NaN.
Proof.
  intros Hw Hi.
  destruct (bands_nth_error sqrtQ data window k i Hi) as [_ [Hu Hl]].
  assert (Hi' : (i < length (Close data))%nat) by now rewrite Close_length.
  pose proof (window_at_length window (Close data) i Hi') as Hlen.
  rewrite Hu, Hl. rewrite var_agg_single by lia.
  cbn [zsqrt]. rewrite fmul_nan_l. unfold fsub. cbn [fneg].
  now rewrite fadd_nan_r.
Qed.

Lemma bollinger_bands_need_two_rows_witness :
  nth_error (fst (calculate_bollinger_bands sqrt_approx short_history 1 (of_Z 2))) 5
    = Some NaN.
Proof.
  apply (bollinger_bands_need_two_rows sqrt_approx short_history 1 (of_Z 2) 5);
    [lia | simpl; lia].
Defined.

(** ** More on the crossover columns *)

Lemma fgt_irrefl (x : float) : fgt x x = false.
Proof.
  unfold fgt. destruct x; try reflexivity.
  unfold flt, qv. simpl. apply Qltb_false. lra.
Qed.

(** X8. The script does not require the short window to be shorter than
    the long one.  When both windows are equal the two averages coincide,
    the flag is 0 on every row and the signal is 0 on every row after the
    first: no crossover is ever reported. *)
Theorem crossover_silent_on_equal_windows (data : PriceSeries) (w i : nat) :
  (i < length data)%nat ->
  nth_error (crossover data w w) i = Some 0%Z /\
  ((0 < i)%nat ->
     exists v, nth_error (crossover_signal data w w) i = Some v /\ v =~ 0).
Proof.
  assert (Hflag : forall j, (j < length data)%nat ->
            nth_error (crossover data w w) j = Some 0%Z).
  { intros j Hj.
    destruct (crossover_nth_error data w w j Hj) as [a [b [Ha [Hb Hf]]]].
    rewrite Ha in Hb. injection Hb as <-. now rewrite Hf, fgt_irrefl. }
  intro Hi. split; [apply Hflag, Hi|].
  intro Hpos. destruct i as [|k]; [lia|].
  eexists. split.
  - apply crossover_signal_next; apply Hflag; lia.
  - vm_compute. eexists. split; reflexivity.
Qed.

Lemma crossover_silent_on_equal_windows_witness :
  nth_error (crossover short_history 3 3) 6 = Some 0%Z.
Proof.
  apply (crossover_silent_on_equal_windows short_history 3 6). simpl. lia.
Defined.

(** X9. The signal is the first difference of the flag, so its running
    total gives the flag back: the flag on row [i] is the flag on row 0
    plus the sum of the signal over the rows 1 to [i]. *)
Theorem crossover_signal_sums_to_flag (data : PriceSeries) (s l i : nat) :
  (i < length data)%nat ->
  exists f0 fi,
    nth_error (crossover data s l) 0 = Some f0 /\
    nth_error (crossover data s l) i = Some fi /\
    inject_Z fi ==
      inject_Z f0
      + Qsum (map (fun j => qv (nth j (crossover_signal data s l) NaN)) (seq 1 i)).
Proof.
  induction i as [|i IH]; intro Hi.
  - destruct (crossover_nth_error data s l 0 Hi) as [a [b [_ [_ Hf]]]].
    eexists. eexists. split; [exact Hf|]. split; [exact Hf|].
    simpl. lra.
  - destruct IH as [f0 [fi [H0 [Hfi Hsum]]]]; [lia|].
    destruct (crossover_nth_error data s l (S i) Hi) as [a [b [_ [_ Hf]]]].
    exists f0. eexists. split; [exact H0|]. split; [exact Hf|].
    rewrite seq_S, map_app, Qsum_concat. cbn [map Nat.add].
    unfold Qsum at 2. cbn [fold_right].
    rewrite (nth_error_nth_default _ _ NaN _
               (crossover_signal_next data s l i _ _ Hfi Hf)).
    pose proof (qv_is_val _ _
                  (fsub_val (of_Z (flag_of (fgt a b))) (of_Z fi) _ _
                            (is_val_Fin _) (is_val_Fin _))) as Hd.
    lra.
Qed.

Lemma crossover_signal_sums_to_flag_witness :
  exists f0 fi,
    nth_error (crossover short_history 2 4) 0 = Some f0 /\
    nth_error (crossover short_history 2 4) 7 = Some fi /\
    inject_Z fi ==
      inject_Z f0
      + Qsum (map (fun j => qv (nth j (crossover_signal short_history 2 4) NaN))
                  (seq 1 7)).
Proof.
  apply (crossover_signal_sums_to_flag short_history 2 4 7). simpl. lia.
Defined.

(** ** More on the target column *)

(** X10. The target column is aligned with the prices and holds 0 or 1 on
    every row; it is 1 exactly on the rows that have a next row with a
    strictly greater close, so an unchanged close counts as 0. *)
Theorem target_col_marks_next_day_rise (data : PriceSeries) (i : nat) (c : Q) :
  nth_error data i = Some c ->
  length (target_col data) = length data /\
  exists t, nth_error (target_col data) i = Some t /\
    (t = 0%Z \/ t = 1%Z) /\
    (t = 1%Z <-> exists next, nth_error data (S i) = Some next /\ c < next).
Proof.
  intro Hc. split; [apply target_col_length|].
  rewrite (target_col_nth_error data i c Hc).
  destruct (nth_error data (S i)) as [next|].
  - exists (flag_of (Qltb c next)). split; [reflexivity|].
    destruct (Qltb c next) eqn:E; simpl; qtests.
    + split; [now right|]. split; [intros _; exists next; split; auto|auto].
    + split; [now left|]. split; [discriminate|].
      intros [n' [Hn Hlt]]. injection Hn as <-. exfalso. lra.
  - exists 0%Z. split; [reflexivity|]. split; [now left|].
    split; [discriminate | intros [n' [Hn _]]; discriminate].
Qed.

Lemma target_col_marks_next_day_rise_witness :
  exists t, nth_error (target_col short_history) 5 = Some t /\
    (t = 1%Z <-> exists next, nth_error short_history 6 = Some next /\ 11 < next).
Proof.
  destruct (target_col_marks_next_day_rise short_history 5 11 eq_refl)
    as [_ [t [Ht [_ H]]]].
  exists t. split; [exact Ht | exact H].
Defined.

(** ** The rows that reach the classifier *)

Lemma notna_not_nan (x : float) : notna x = true -> x <> NaN.
Proof. intros H E. subst. discriminate. Qed.

Lemma stock_data_row (data : PriceSeries) (s l : nat) (r : row) :
  In r (stock_data data s l) ->
  (Date r < length data)%nat /\
  nth_error (calculate_sma data s) (Date r) = Some (SMA_Short r) /\
  nth_error (calculate_sma data l) (Date r) = Some (SMA_Long r) /\
  nth_error (calculate_rsi data 20) (Date r) = Some (RSI r) /\
  nth_error (calculate_macd data) (Date r) = Some (MACD r) /\
  nth_error (target_col data) (Date r) = Some (Target r).
Proof.
  unfold stock_data. intro H. apply in_map_iff in H.
  destruct H as [i [<- Hi]]. apply in_seq in Hi. cbn [Date SMA_Short SMA_Long RSI MACD Target].
  split; [lia|].
  repeat split; apply nth_error_nth'.
  - rewrite calculate_sma_length. lia.
  - rewrite calculate_sma_length. lia.
  - rewrite rsi_length. lia.
  - unfold calculate_macd.
    rewrite zip_with_length, !ewm_mean_length, Close_length. lia.
  - rewrite target_col_length. lia.
Qed.

Lemma filter_seq_sorted (p : nat -> bool) (n a : nat) :
  StronglySorted lt (filter p (seq a n)).
Proof.
  revert a. induction n as [|n IH]; intro a; simpl; [constructor|].
  destruct (p a); [|apply IH].
  constructor; [apply IH|].
  apply Forall_forall. intros x Hx. apply filter_In in Hx.
  destruct Hx as [Hx _]. apply in_seq in Hx. lia.
Qed.

Lemma dropna_dates (data : PriceSeries) (s l : nat) :
  exists p : nat -> bool,
    map Date (dropna (stock_data data s l)) = filter p (seq 0 (length data)).
Proof.
  unfold dropna, stock_data.
  set (f := fun i : nat => _).
  set (q := fun r : row => _).
  exists (fun i => q (f i)).
  induction (seq 0 (length data)) as [|a rest IH]; simpl; [reflexivity|].
  destruct (q (f a)); simpl; now rewrite IH.
Qed.

Lemma calculate_sma_nan_or_finite (data : PriceSeries) (p i : nat) (v : float) :
  nth_error (calculate_sma data p) i = Some v -> v = NaN \/ finite v.
Proof.
  intro Hv.
  assert (Hi : (i < length data)%nat).
  { rewrite <- (calculate_sma_length data p). apply nth_error_Some. congruence. }
  destruct p as [|p'].
  - rewrite (calculate_sma_period_zero data i Hi) in Hv. injection Hv as <-.
    now left.
  - destruct (calculate_sma_cases data (S p') i) as [v' [Hv' Hc]]; [lia | exact Hi |].
    rewrite Hv in Hv'. injection Hv' as <-.
    destruct Hc as [[_ ->]|[_ Hm]]; [now left | right; eexists; exact Hm].
Qed.

Lemma calculate_rsi_nan_or_in_range (data : PriceSeries) (period i : nat)
  (v : float) :
  nth_error (calculate_rsi data period) i = Some v ->
  v = NaN \/ exists q, v =~ q /\ 0 <= q /\ q <= 100.
Proof.
  intro Hv.
  pose proof (rsi_index_in_range data period i v Hv) as Hi.
  destruct (rsi_gain_cases data period i Hi) as [g [Hg Hgc]].
  destruct (rsi_loss_cases data period i Hi) as [l [Hl Hlc]].
  rewrite (rsi_nth_error data period i g l Hg Hl) in Hv. injection Hv as <-.
  destruct Hgc as [->|[gq [Hgq [Hg0 _]]]]; [now left|].
  destruct Hlc as [->|[lq [Hlq [Hl0 _]]]]; [left; now rewrite fdiv_nan_r|].
  destruct (rsi_of_means g l gq lq Hgq Hlq Hg0 Hl0)
    as [[_ [_ E]]|[q [Hq [H0 [H100 _]]]]]; [now left | right].
  exists q. split; [exact Hq | split; assumption].
Qed.

Lemma calculate_macd_value_finite (data : PriceSeries) (i : nat) (v : float) :
  nth_error (calculate_macd data) i = Some v -> finite v.
Proof.
  intro Hv.
  assert (Hi : (i < length data)%nat).
  { assert (Hlen : length (calculate_macd data) = length data).
    { unfold calculate_macd.
      rewrite zip_with_length, !ewm_mean_length, Close_length. lia. }
    rewrite <- Hlen. apply nth_error_Some. congruence. }
  destruct (ewm_mean_Close 12 data i Hi) as [a [Ha Hav]].
  destruct (ewm_mean_Close 26 data i Hi) as [b [Hb Hbv]].
  unfold calculate_macd in Hv. rewrite zip_with_nth_error, Ha, Hb in Hv.
  injection Hv as <-. eexists. apply fsub_val; eassumption.
Qed.

Lemma target_col_binary (data : PriceSeries) (d : nat) (t : Z) :
  nth_error (target_col data) d = Some t -> (t = 0 \/ t = 1)%Z.
Proof.
  intro Ht.
  assert (Hd : (d < length data)%nat).
  { rewrite <- target_col_length. apply nth_error_Some. congruence. }
  destruct (nth_error_in_range data d Hd) as [c Hc].
  rewrite (target_col_nth_error data d c Hc) in Ht.
  destruct (nth_error data (S d)) as [next|]; injection Ht as <-; [|now left].
  destruct (Qltb c next); [now right | now left].
Qed.

(** X11. What reaches the classifier.  The feature matrix and the label
    vector have the same number of rows, in date order without repetition.
    Row [k] of the feature matrix holds, for its date [d], the values of
    the short average, the long average, the 20-day index and MACD at [d];
    all four are finite numbers (no NaN and no infinity), the index within
    [0, 100].  Row [k] of the label vector carries the same date and the
    value of the target column at [d], which is 0 or 1. *)
Theorem training_set_holds_defined_indicators (data : PriceSeries) (s l : nat) :
  let rows := dropna (stock_data data s l) in
  length (features_of rows) = length (target_of rows) /\
  StronglySorted lt (map fst (features_of rows)) /\
  forall k d a b c e,
    nth_error (features_of rows) k = Some (d, (a, b, c, e)) ->
    nth_error (calculate_sma data s) d = Some a /\ finite a /\
    nth_error (calculate_sma data l) d = Some b /\ finite b /\
    nth_error (calculate_rsi data 20) d = Some c /\
    (exists q, c =~ q /\ 0 <= q /\ q <= 100) /\
    nth_error (calculate_macd data) d = Some e /\ finite e /\
    exists t, nth_error (target_of rows) k = Some (d, t) /\
              nth_error (target_col data) d = Some t /\ (t = 0 \/ t = 1)%Z.
Proof.
  cbv zeta.
  split; [now rewrite features_of_length, target_of_length|].
  split.
  - unfold features_of. rewrite map_map. cbn [fst].
    destruct (dropna_dates data s l) as [p Hp].
    change (map (fun x : row => Date x) (dropna (stock_data data s l)))
      with (map Date (dropna (stock_data data s l))).
    rewrite Hp. apply filter_seq_sorted.
  - intros k d a b c e Hk.
    unfold features_of in Hk. rewrite nth_error_map in Hk.
    destruct (nth_error (dropna (stock_data data s l)) k) as [r|] eqn:Hr;
      [|discriminate].
    cbn [option_map] in Hk. injection Hk as <- <- <- <- <-.
    assert (Hkept : In r (dropna (stock_data data s l)))
      by (eapply nth_error_In; eauto).
    apply dropna_keeps in Hkept. destruct Hkept as [Hin Hdef].
    destruct (stock_data_row data s l r Hin) as [Hd [H1 [H2 [H3 [H4 H5]]]]].
    unfold indicators_defined in Hdef.
    apply andb_true_iff in Hdef. destruct Hdef as [Hdef Hn4].
    apply andb_true_iff in Hdef. destruct Hdef as [Hdef Hn3].
    apply andb_true_iff in Hdef. destruct Hdef as [Hn1 Hn2].
    apply notna_not_nan in Hn1, Hn2, Hn3, Hn4.
    split; [exact H1|]. split.
    { destruct (calculate_sma_nan_or_finite data s _ _ H1); [contradiction | assumption]. }
    split; [exact H2|]. split.
    { destruct (calculate_sma_nan_or_finite data l _ _ H2); [contradiction | assumption]. }
    split; [exact H3|]. split.
    { destruct (calculate_rsi_nan_or_in_range data 20 _ _ H3); [contradiction | assumption]. }
    split; [exact H4|]. split; [exact (calculate_macd_value_finite data _ _ H4)|].
    exists (Target r). split.
    + unfold target_of. now rewrite nth_error_map, Hr.
    + split; [exact H5 | exact (target_col_binary data _ _ H5)].
Qed.

(** ** How much history the prediction step needs *)

Lemma filter_length_bound {A : Type} (p : A -> bool) (l : list A) (k : nat) :
  (forall j x, (j < k)%nat -> nth_error l j = Some x -> p x = false) ->
  (length (filter p l) <= length l - k)%nat.
Proof.
  revert k. induction l as [|a l IH]; intros k H; simpl; [lia|].
  destruct k as [|k].
  - pose proof (filter_length_le p (a :: l)) as Hle. simpl in Hle. lia.
  - rewrite (H 0%nat a) by (simpl; auto; lia).
    apply IH. intros j x Hj Hx. apply (H (S j) x); [lia | exact Hx].
Qed.

(** A row inside the warm-up of one of the three windows is incomplete. *)
Lemma warmup_row_incomplete (data : PriceSeries) (s l j : nat) (r : row) :
  (0 < s)%nat -> (0 < l)%nat ->
  (j + 1 < Nat.max (Nat.max s l) 20)%nat ->
  nth_error (stock_data data s l) j = Some r ->
  indicators_defined r = false.
Proof.
  intros Hs Hl Hj Hr.
  assert (Hn : (j < length data)%nat).
  { rewrite <- (stock_data_length data s l). apply nth_error_Some. congruence. }
  destruct (stock_data_nth_error data s l j Hn) as [r' [Hr' [_ [_ Hdef]]]].
  rewrite Hr in Hr'. injection Hr' as <-. rewrite Hdef.
  destruct (calculate_sma_cases data s j Hs Hn) as [a [Ha Hac]].
  destruct (calculate_sma_cases data l j Hl Hn) as [b [Hb Hbc]].
  rewrite (nth_error_nth_default _ _ NaN _ Ha).
  rewrite (nth_error_nth_default _ _ NaN _ Hb).
  destruct Hac as [[_ ->]|[Hsa _]]; [reflexivity|].
  destruct Hbc as [[_ ->]|[Hsb _]]; [simpl; now rewrite andb_false_r|].
  rewrite (nth_error_nth_default _ _ NaN _
             (calculate_rsi_nan_before data 20 j Hn ltac:(lia))).
  simpl. now rewrite andb_false_r.
Qed.

Lemma dropna_as_filter (rows : list row) :
  dropna rows = filter indicators_defined rows.
Proof.
  unfold dropna. apply filter_ext. intro r.
  unfold indicators_defined, int_notna. apply andb_true_r.
Qed.

(** X12. No row of the warm-up of the short average, of the long average or
    of the 20-day index is complete, so at most
    [length data + 1 - max(short, long, 20)] rows remain; a history
    shorter than [max(short, long, 20) + 4] rows therefore always ends in
    the "not enough data" message. *)
Theorem prediction_needs_long_history (data : PriceSeries) (s l : nat) :
  (0 < s)%nat -> (0 < l)%nat ->
  (length (dropna (stock_data data s l))
     <= length data + 1 - Nat.max (Nat.max s l) 20)%nat /\
  ((length data < Nat.max (Nat.max s l) 20 + 4)%nat ->
     prediction_model data s l = [st_write not_enough_data]).
Proof.
  intros Hs Hl.
  assert (Hlen : (length (dropna (stock_data data s l))
                  <= length data + 1 - Nat.max (Nat.max s l) 20)%nat).
  { rewrite dropna_as_filter.
    pose proof (filter_length_bound indicators_defined (stock_data data s l)
                  (Nat.max (Nat.max s l) 20 - 1)) as Hb.
    rewrite stock_data_length in Hb.
    assert (Hk : (length data - (Nat.max (Nat.max s l) 20 - 1)
                  = length data + 1 - Nat.max (Nat.max s l) 20)%nat) by lia.
    rewrite <- Hk. apply Hb. intros j r Hj Hr.
    apply (warmup_row_incomplete data s l j r Hs Hl); [lia | exact Hr]. }
  split; [exact Hlen|].
  intro Hshort. unfold prediction_model. rewrite features_of_length.
  assert (E : (length (dropna (stock_data data s l)) <? 5)%nat = true)
    by (apply Nat.ltb_lt; lia).
  now rewrite E.
Qed.

Lemma prediction_needs_long_history_witness :
  prediction_model short_history 10 50 = [st_write not_enough_data].
Proof.
  apply (proj2 (prediction_needs_long_history short_history 10 50
                  ltac:(lia) ltac:(lia))).
  simpl. lia.
Defined.

(** ** The recommendation on the provider's dictionary *)

Lemma company_info_pe (info : dict) :
  dict_item (get_company_info info) "PE Ratio"
  = Some (dict_get info "trailingPE" (PyStr "N/A")).
Proof. reflexivity. Qed.

(** X13. [get_company_info] followed by the recommendation of [main]: when
    the provider has no [trailingPE] entry the default "N/A" is used and
    the result is Hold; a numeric entry goes through the 15/25 rule. *)
Theorem recommendation_from_provider_info (info : dict) :
  (dict_item info "trailingPE" = None ->
     main_recommendation (get_company_info info) = Some Hold) /\
  (dict_item info "trailingPE" = Some (PyStr "N/A") ->
     main_recommendation (get_company_info info) = Some Hold) /\
  (forall x, dict_item info "trailingPE" = Some (PyNum x) ->
     main_recommendation (get_company_info info) = Some (recommend (PE_num x))).
Proof.
  unfold main_recommendation. rewrite company_info_pe. unfold dict_get.
  split; [|split].
  - intros ->. reflexivity.
  - intros ->. reflexivity.
  - intros x ->. unfold recommend, py_and, py_ne_str, py_lt_int, py_gt_int.
    cbn [pe_available pe_lt pe_gt andb].
    destruct (flt x (of_Z 15)); [reflexivity|].
    destruct (fgt x (of_Z 25)); reflexivity.
Qed.

Lemma recommendation_from_provider_info_witness :
  main_recommendation (get_company_info [("sector", PyStr "Technology")]%string)
    = Some Hold /\
  main_recommendation (get_company_info [("trailingPE", PyNum (of_Z 30))]%string)
    = Some Sell.
Proof.
  split.
  - apply (proj1 (recommendation_from_provider_info _)). reflexivity.
  - apply (proj2 (proj2 (recommendation_from_provider_info _)) (of_Z 30)).
    reflexivity.
Defined.

(** X14. Only the missing entry is covered by the "N/A" default.  An entry
    that is present but holds [None], or a string other than "N/A", passes
    the test [!= "N/A"] and then fails in the comparison with 15: the
    recommendation raises instead of returning Hold. *)
Theorem recommendation_raises_on_null_entry (info : dict) :
  (dict_item info "trailingPE" = Some PyNone ->
     main_recommendation (get_company_info info) = None) /\
  (forall s, s <> "N/A"%string ->
     dict_item info "trailingPE" = Some (PyStr s) ->
     main_recommendation (get_company_info info) = None).
Proof.
  unfold main_recommendation. rewrite company_info_pe. unfold dict_get.
  split.
  - intros ->. reflexivity.
  - intros s Hs ->. unfold py_and, py_ne_str.
    apply String.eqb_neq in Hs. rewrite Hs. reflexivity.
Qed.

Lemma recommendation_raises_on_null_entry_witness :
  main_recommendation (get_company_info [("trailingPE", PyNone)]%string) = None /\
  main_recommendation (get_company_info [("trailingPE", PyStr "Infinity")]%string)
    = None.
Proof.
  split.
  - apply (proj1 (recommendation_raises_on_null_entry _)). reflexivity.
  - apply (proj2 (recommendation_raises_on_null_entry _) "Infinity"%string);
      [discriminate | reflexivity].
Defined.

(** ** Which rows are complete *)

Lemma Qsum_map_add (f g : nat -> Q) (l : list nat) :
  Qsum (map (fun j => f j + g j) l) == Qsum (map f l) + Qsum (map g l).
Proof.
  unfold Qsum. induction l as [|a l IH]; simpl; [lra | rewrite IH; lra].
Qed.

Lemma Qsum_map_term_le (f : nat -> Q) (l : list nat) (k : nat) :
  (forall j, 0 <= f j) -> In k l -> f k <= Qsum (map f l).
Proof.
  intros Hf. unfold Qsum. induction l as [|a l IH]; intro Hin; [contradiction|].
  simpl. destruct Hin as [->|Hin].
  - assert (H : 0 <= fold_right Qplus 0 (map f l)).
    { clear IH. induction l as [|b l IH]; simpl; [lra|].
      specialize (Hf b). lra. }
    lra.
  - specialize (IH Hin). specialize (Hf a). lra.
Qed.

Lemma rise_fall_of_change (data : PriceSeries) (k : nat) :
  (1 <= k)%nat ->
  (change data k == 0 -> rise data k == 0 /\ fall data k == 0) /\
  (~ change data k == 0 -> 0 < rise data k + fall data k).
Proof.
  intro Hk. destruct k as [|k']; [lia|]. unfold rise, fall.
  destruct (Qltb 0 (change data (S k'))) eqn:E1;
    destruct (Qltb (change data (S k')) 0) eqn:E2; qtests;
    (split; [intro H; split; lra | intro H]); try lra;
    exfalso; apply H; lra.
Qed.

(** The window has a positive total movement exactly when one of its
    day-over-day changes is not zero. *)
Lemma window_moves_iff_change (data : PriceSeries) (p j : nat) :
  (p <= j + 1)%nat ->
  (0 < window_sum (rise data) p j + window_sum (fall data) p j <->
   exists k, (j + 1 - p <= k <= j)%nat /\ (1 <= k)%nat /\
             ~ change data k == 0).
Proof.
  intro Hp. split.
  - intro Hpos.
    destruct (flat_window_or_change data p j) as [Hflat|Hex]; [|exact Hex].
    exfalso.
    assert (Hz : forall f : nat -> Q,
              (forall k, (1 <= k)%nat -> change data k == 0 -> f k == 0) ->
              f 0%nat == 0 -> window_sum f p j == 0).
    { intros f Hf H0. unfold window_sum. apply Qsum_zero, Forall_map.
      apply Forall_forall. intros k Hk. apply in_seq in Hk.
      destruct k as [|k']; [exact H0|].
      apply Hf; [lia|]. apply Hflat; lia. }
    rewrite (Hz (rise data)), (Hz (fall data)) in Hpos;
      try reflexivity; [lra | |];
      intros k Hk Hc; now apply (rise_fall_of_change data k Hk).
  - intros [k [Hk [Hk1 Hc]]].
    pose proof (proj2 (rise_fall_of_change data k Hk1) Hc) as Hterm.
    assert (Hle : rise data k + fall data k
                  <= Qsum (map (fun j => rise data j + fall data j)
                               (seq (j + 1 - p) p))).
    { apply (Qsum_map_term_le (fun j => rise data j + fall data j)).
      - intro i. pose proof (rise_nonneg data i). pose proof (fall_nonneg data i).
        lra.
      - apply in_seq. lia. }
    rewrite Qsum_map_add in Hle. unfold window_sum. lra.
Qed.

Lemma complete_row_iff_window_moves (data : PriceSeries) (s l j : nat) :
  (0 < s)%nat -> (0 < l)%nat -> (j < length data)%nat ->
  exists r, nth_error (stock_data data s l) j = Some r /\ Date r = j /\
    (In r (dropna (stock_data data s l)) <->
       (Nat.max (Nat.max s l) 20 <= j + 1)%nat /\
       0 < window_sum (rise data) 20 j + window_sum (fall data) 20 j).
Proof.
  intros Hs Hl Hj.
  destruct (stock_data_nth_error data s l j Hj) as [r [Hr [Hd [_ Hdef]]]].
  exists r. split; [exact Hr|]. split; [exact Hd|].
  rewrite dropna_keeps.
  assert (Hin : In r (stock_data data s l)) by (eapply nth_error_In; eauto).
  assert (Hmacd : notna (nth j (calculate_macd data) NaN) = true).
  { destruct (ewm_mean_Close 12 data j Hj) as [a [Ha Hav]].
    destruct (ewm_mean_Close 26 data j Hj) as [b [Hb Hbv]].
    assert (E : nth_error (calculate_macd data) j = Some (fsub a b)).
    { unfold calculate_macd. now rewrite zip_with_nth_error, Ha, Hb. }
    rewrite (nth_error_nth_default _ _ NaN _ E).
    eapply is_val_notna. apply fsub_val; eassumption. }
  rewrite Hdef, Hmacd, andb_true_r.
  destruct (Nat.lt_ge_cases (j + 1) (Nat.max (Nat.max s l) 20)) as [Hw|Hw].
  - split; [|intros [H _]; lia]. intro Hall. exfalso.
    pose proof (warmup_row_incomplete data s l j r Hs Hl Hw Hr) as Hno.
    rewrite Hdef, Hmacd, andb_true_r in Hno.
    destruct Hall as [_ Hall]. congruence.
  - destruct (calculate_sma_cases data s j Hs Hj) as [a [Ha Hac]].
    destruct (calculate_sma_cases data l j Hl Hj) as [b [Hb Hbc]].
    destruct Hac as [[Hlt _]|[_ Hav]]; [lia|].
    destruct Hbc as [[Hlt _]|[_ Hbv]]; [lia|].
    rewrite (nth_error_nth_default _ _ NaN _ Ha), (is_val_notna _ _ Hav).
    rewrite (nth_error_nth_default _ _ NaN _ Hb), (is_val_notna _ _ Hbv).
    cbn [andb].
    destruct (calculate_rsi_cases data 20 j) as [HG [HL [v [Hv [Hpos Hzero]]]]];
      [lia | lia | exact Hj |].
    rewrite (nth_error_nth_default _ _ NaN _ Hv).
    split.
    + intros [_ Hna]. split; [exact Hw|].
      destruct (Qlt_le_dec 0 (window_sum (rise data) 20 j
                              + window_sum (fall data) 20 j)) as [H|H];
        [exact H|].
      rewrite Hzero in Hna by lra. discriminate.
    + intros [_ H]. split; [exact Hin|].
      eapply is_val_notna. apply Hpos. exact H.
Qed.

(** X16. Row [j] of the history reaches the classifier exactly when it lies
    past the warm-up of the short average, of the long average and of the
    20-day index, and at least one of the twenty day-over-day changes that
    end at row [j] (the changes at rows [j-19] to [j]; row 0 has none) is
    not zero, that is when their total rise plus total fall is positive.
    Twenty equal closes do not exclude a row when the change into the first
    of them is not zero.  MACD and the target never exclude a row. *)
Theorem complete_rows_characterised (data : PriceSeries) (s l j : nat) :
  (0 < s)%nat -> (0 < l)%nat -> (j < length data)%nat ->
  exists r, nth_error (stock_data data s l) j = Some r /\ Date r = j /\
    (In r (dropna (stock_data data s l)) <->
       (Nat.max (Nat.max s l) 20 <= j + 1)%nat /\
       0 < window_sum (rise data) 20 j + window_sum (fall data) 20 j) /\
    (In r (dropna (stock_data data s l)) <->
       (Nat.max (Nat.max s l) 20 <= j + 1)%nat /\
       exists k, (j + 1 - 20 <= k <= j)%nat /\ (1 <= k)%nat /\
                 ~ change data k == 0).
Proof.
  intros Hs Hl Hj.
  destruct (complete_row_iff_window_moves data s l j Hs Hl Hj)
    as [r [Hr [Hd Hiff]]].
  exists r. split; [exact Hr|]. split; [exact Hd|]. split; [exact Hiff|].
  rewrite Hiff. split; intros [Hw H]; (split; [exact Hw|]);
    apply (window_moves_iff_change data 20 j); try exact H; lia.
Qed.

Lemma complete_rows_characterised_witness :
  exists r, nth_error (stock_data long_history 10 50) 55 = Some r /\ Date r = 55%nat /\
    (In r (dropna (stock_data long_history 10 50)) <->
       (Nat.max (Nat.max 10 50) 20 <= 55 + 1)%nat /\
       exists k, (55 + 1 - 20 <= k <= 55)%nat /\ (1 <= k)%nat /\
                 ~ change long_history k == 0).
Proof.
  destruct (complete_rows_characterised long_history 10 50 55)
    as [r [Hr [Hd [_ H]]]]; [lia | lia | simpl; lia |].
  exists r. split; [exact Hr|]. split; [exact Hd | exact H].
Defined.
